(** * adb-scanner-pro: the scan core of [adb_scanner_v5.2_FINAL.py]

    A shallow embedding of the validator, the target space generator, the
    probe layer, the result loop of [ADBScanner.scan_async], [stop_scan],
    [export_csv] and [export_json], with the properties of the
    specification stated over it.

    Conventions.
    - A Python [str] is a list of code points; the model keeps the code
      points below 256 ([ascii]).  On that range [\d] is [0-9],
      [str.isspace] is the set given by [isspace] below and the white space
      that [int] skips is the smaller set [int_space].  [int] has CPython's
      default limit of 4300 digits ([sys.get_int_max_str_digits()]).
    - A Python [int] is a [Z]; a [float] is a binary64 [float].
    - A raised exception is a value of [exc]; [try]/[except] is a [match].
    - The worker pool is not run inside [scan_async]: the futures that
      [as_completed] yields, and the moments at which another thread has
      called [stop_scan], are an input of the model (an [event] list).  The
      pool itself is the step relation of module [Pool]. *)

From Stdlib Require Import ZArith Ascii String List Lia DecimalString DecimalZ PrimFloat.
From stdpp Require Import gmap strings list sorting.

Local Open Scope Z_scope.

(** ** Python values *)

Abbreviation str := (list ascii).

Definition py (s : string) : str := list_ascii_of_string s.

Definition LF : ascii := ascii_of_nat 10.

Inductive exn : Type :=
| ValueError
| IndexError
| RuntimeError.

Inductive exc (A : Type) : Type :=
| Ok (a : A)
| Raise (e : exn).

Arguments Ok {A} a.
Arguments Raise {A} e.

Definition bind {A B : Type} (m : exc A) (f : A -> exc B) : exc B :=
  match m with
  | Ok a => f a
  | Raise e => Raise e
  end.

Notation "x <- m ;; k" := (bind m (fun x => k))
  (at level 100, m at next level, right associativity).

Definition ord (c : ascii) : Z := Z.of_N (N_of_ascii c).

(** A decimal digit ([c.isdecimal()]): what [\d] matches and what [int]
    reads, on the modelled range. *)
Definition isdecimal (c : ascii) : bool := (48 <=? ord c) && (ord c <=? 57).

(** [c.isspace()]: TAB..CR, FS..US, space, NEL and NBSP. *)
Definition isspace (c : ascii) : bool :=
  ((9 <=? ord c) && (ord c <=? 13)) || ((28 <=? ord c) && (ord c <=? 32))
  || (ord c =? 133) || (ord c =? 160).

Definition digit_val (c : ascii) : Z := ord c - 48.

Fixpoint lstrip (s : str) : str :=
  match s with
  | c :: s' => if isspace c then lstrip s' else s
  | [] => []
  end.

Definition rstrip (s : str) : str := rev (lstrip (rev s)).

(** [s.strip()] *)
Definition strip (s : str) : str := rstrip (lstrip s).

(** [s.split(sep)] for a one-character separator: never an empty list. *)
Fixpoint split (sep : ascii) (s : str) : list str :=
  match s with
  | [] => [[]]
  | c :: s' =>
      if Ascii.eqb c sep then [] :: split sep s'
      else match split sep s' with
           | p :: ps => (c :: p) :: ps
           | [] => [[c]]
           end
  end.

(** [sep.join(parts)] *)
Fixpoint join (sep : str) (parts : list str) : str :=
  match parts with
  | [] => []
  | [p] => p
  | p :: ps => p ++ sep ++ join sep ps
  end.

(** [c in s] *)
Definition contains (c : ascii) (s : str) : bool := existsb (Ascii.eqb c) s.

(** The digits of an [int] literal: groups of digits separated by single
    underscores.  [prev] tells whether the previous character was a digit. *)
Fixpoint int_digits (acc : Z) (prev : bool) (s : str) : exc Z :=
  match s with
  | [] => if prev then Ok acc else Raise ValueError
  | c :: s' =>
      if isdecimal c then int_digits (10 * acc + digit_val c) true s'
      else if Ascii.eqb c "_"%char then
             if prev then int_digits acc false s' else Raise ValueError
      else Raise ValueError
  end.

(** The white space that [int] skips around a literal: TAB..CR, space, NEL
    and NBSP.  FS..US are white space for [str.strip] but not for [int]:
    [int("\x1c1")] raises [ValueError]. *)
Definition int_space (c : ascii) : bool :=
  ((9 <=? ord c) && (ord c <=? 13)) || (ord c =? 32)
  || (ord c =? 133) || (ord c =? 160).

Fixpoint int_lstrip (s : str) : str :=
  match s with
  | c :: s' => if int_space c then int_lstrip s' else s
  | [] => []
  end.

Definition int_strip (s : str) : str := rev (int_lstrip (rev (int_lstrip s))).

(** [sys.get_int_max_str_digits()], at its default. *)
Definition int_max_str_digits : Z := 4300.

(** The number of digits the limit counts: the digit characters of the
    literal, leading zeros included, underscores and sign left out. *)
Definition digit_count (s : str) : Z := Z.of_nat (length (List.filter isdecimal s)).

(** The literal after the sign: too many digits raise [ValueError] as a
    malformed literal does. *)
Definition int_literal (s : str) : exc Z :=
  if int_max_str_digits <? digit_count s then Raise ValueError
  else int_digits 0 false s.

(** [int(s)] in base 10: surrounding whitespace, an optional sign, digits. *)
Definition int_ (s : str) : exc Z :=
  match int_strip s with
  | c :: body =>
      if Ascii.eqb c "+"%char then int_literal body
      else if Ascii.eqb c "-"%char then v <- int_literal body ;; Ok (- v)
      else int_literal (c :: body)
  | [] => Raise ValueError
  end.

(** [str(n)] *)
Definition str_ (n : Z) : str := py (NilEmpty.string_of_int (Z.to_int n)).

(** ** The fragment of [re] that [validate_ip] uses *)

Inductive regex : Type :=
| Digit                               (* \d *)
| Chr (c : ascii)                     (* an escaped literal character *)
| Seq (r1 r2 : regex)                 (* r1 r2 *)
| Rep (r : regex) (lo hi : nat).      (* r{lo,hi} *)

(** [times f n s]: the rests of [s] after [n] successive matches of [f]. *)
Fixpoint times (f : str -> list str) (n : nat) (s : str) : list str :=
  match n with
  | O => [s]
  | S n' => flat_map (times f n') (f s)
  end.

(** [rests r s]: every rest of [s] that a match of [r] at the start of [s]
    can leave; the search of [re] succeeds exactly when one of them lets the
    remainder of the pattern match. *)
Fixpoint rests (r : regex) (s : str) : list str :=
  match r with
  | Digit => match s with
             | c :: s' => if isdecimal c then [s'] else []
             | [] => []
             end
  | Chr a => match s with
             | c :: s' => if Ascii.eqb c a then [s'] else []
             | [] => []
             end
  | Seq r1 r2 => flat_map (rests r2) (rests r1 s)
  | Rep r' lo hi => flat_map (fun k => times (rests r') k s) (seq lo (S hi - lo))
  end.

(** [$] without [re.MULTILINE]: at the end of the string, or just before a
    newline that is the last character of the string. *)
Definition at_dollar (rest : str) : bool :=
  match rest with
  | [] => true
  | [c] => Ascii.eqb c LF
  | _ => false
  end.

(** [re.match('^' r '$', s)] is not [None]. *)
Definition re_match (r : regex) (s : str) : bool := existsb at_dollar (rests r s).

(** ** Validation functions *)

(** [r'^(\d{1,3}\.){3}\d{1,3}$'] *)
Definition pattern : regex :=
  Seq (Rep (Seq (Rep Digit 1 3) (Chr "."%char)) 3 3) (Rep Digit 1 3).

(** [all(0 <= int(p) <= 255 for p in parts)]: stops at the first false. *)
Fixpoint all_octets (parts : list str) : exc bool :=
  match parts with
  | [] => Ok true
  | p :: ps =>
      v <- int_ p ;;
      if (0 <=? v) && (v <=? 255) then all_octets ps else Ok false
  end.

Definition validate_ip (ip : str) : exc bool :=
  if negb (re_match pattern ip) then Ok false
  else all_octets (split "."%char ip).

Definition validate_port (port : Z) : bool := (1 <=? port) && (port <=? 65535).

Definition validate_threads (threads : Z) : bool := (1 <=? threads) && (threads <=? 200).

(** ** IP address generator *)

(** [map(int, parts)], forced by [tuple]: the first failure is raised. *)
Fixpoint map_int (parts : list str) : exc (list Z) :=
  match parts with
  | [] => Ok []
  | p :: ps => v <- int_ p ;; vs <- map_int ps ;; Ok (v :: vs)
  end.

Definition ip_to_tuple (ip : str) : list Z :=
  match map_int (split "."%char ip) with
  | Ok t => t
  | Raise _ => [0; 0; 0; 0]
  end.

(** [a <= b] on tuples: lexicographic, a proper prefix is smaller. *)
Fixpoint tuple_le (a b : list Z) : bool :=
  match a, b with
  | [], _ => true
  | _ :: _, [] => false
  | x :: a', y :: b' => if x =? y then tuple_le a' b' else x <? y
  end.

(** [l[i]] and [l[i] = v] for a non-negative index. *)
Definition getitem (l : list Z) (i : nat) : exc Z :=
  match l !! i with
  | Some v => Ok v
  | None => Raise IndexError
  end.

Definition setitem (l : list Z) (i : nat) (v : Z) : exc (list Z) :=
  if (i <? length l)%nat then Ok (<[i:=v]> l) else Raise IndexError.

(** [current[i] += 1] *)
Definition bump (i : nat) (current : list Z) : exc (list Z) :=
  v <- getitem current i ;; setitem current i (v + 1).

(** [current[i] > 255] *)
Definition over (i : nat) (current : list Z) : exc bool :=
  v <- getitem current i ;; Ok (255 <? v).

(** The body of the [while] loop after the [append]. *)
Definition increment (current : list Z) : exc (list Z) :=
  current <- bump 3 current ;;
  b3 <- over 3 current ;;
  if b3 then
    current <- setitem current 3 0 ;;
    current <- bump 2 current ;;
    b2 <- over 2 current ;;
    if b2 then
      current <- setitem current 2 0 ;;
      current <- bump 1 current ;;
      b1 <- over 1 current ;;
      if b1 then
        current <- setitem current 1 0 ;;
        bump 0 current
      else Ok current
    else Ok current
  else Ok current.

(** ['.'.join(map(str, current))] *)
Definition dotted (current : list Z) : str := join (py ".") (map str_ current).

(** The [while tuple(current) <= end] loop; [None] when the fuel runs out. *)
Fixpoint ip_loop (fuel : nat) (current end_ : list Z) (ips : list str)
  : option (exc (list str)) :=
  match fuel with
  | O => None
  | S fuel' =>
      if tuple_le current end_ then
        match increment current with
        | Ok current' => ip_loop fuel' current' end_ (ips ++ [dotted current])
        | Raise e => Some (Raise e)
        end
      else Some (Ok ips)
  end.

(** The 32-bit value of a four-octet tuple. *)
Definition tuple_int (t : list Z) : Z :=
  match t with
  | [a; b; c; d] => ((a * 256 + b) * 256 + c) * 256 + d
  | _ => 0
  end.

(** Fuel for the loop: one more than the number of addresses between the
    endpoints ([ip_loop_fuel] shows that it never runs out). *)
Definition ip_fuel (start end_ : list Z) : nat :=
  S (Z.to_nat (tuple_int end_ - tuple_int start + 1)).

(** [not validate_ip(ip_start) or not validate_ip(ip_end)] *)
Definition invalid_range (ip_start ip_end : str) : exc bool :=
  v1 <- validate_ip ip_start ;;
  if negb v1 then Ok true else v2 <- validate_ip ip_end ;; Ok (negb v2).

Definition generate_ip_range (ip_start ip_end : str) : list str :=
  match invalid_range ip_start ip_end with
  | Raise _ => []
  | Ok true => []
  | Ok false =>
      let start := ip_to_tuple ip_start in
      let end_ := ip_to_tuple ip_end in
      match ip_loop (ip_fuel start end_) start end_ [] with
      | Some (Ok ips) => ips
      | Some (Raise _) => []
      | None => []
      end
  end.

(** ** Port specification *)

(** [range(a, b)] *)
Definition range (a b : Z) : list Z := seqZ a (b - a).

(** One iteration of the [for p_str in port_string.split(',')] loop. *)
Definition parse_token (p_str : str) (ports : gset Z) : exc (gset Z) :=
  let p_str := strip p_str in
  if contains "-"%char p_str then
    match split "-"%char p_str with
    | [x; y] =>
        p1 <- int_ x ;;
        p2 <- int_ y ;;
        if validate_port p1 && validate_port p2 && (p1 <=? p2)
        then Ok (ports ∪ list_to_set (range p1 (p2 + 1)))
        else Ok ports
    | _ => Ok ports
    end
  else
    p <- int_ p_str ;;
    if validate_port p then Ok (ports ∪ {[p]}) else Ok ports.

(** The loop inside [try: ... except ValueError:]; the set is updated in
    place, so the ports added before the failure stay.  The boolean tells
    whether the warning was logged. *)
Fixpoint parse_tokens (tokens : list str) (ports : gset Z) : exc (gset Z * bool) :=
  match tokens with
  | [] => Ok (ports, false)
  | t :: ts =>
      match parse_token t ports with
      | Ok ports' => parse_tokens ts ports'
      | Raise ValueError => Ok (ports, true)
      | Raise e => Raise e
      end
  end.

Definition range_ports (port_start port_end : Z) : gset Z :=
  if validate_port port_start && validate_port port_end
  then list_to_set (range port_start (port_end + 1))
  else ∅.

(** [sorted(list(ports))] *)
Definition sorted (ports : gset Z) : list Z := merge_sort Z.le (elements ports).

Definition parse_ports_log (port_string : str) (port_start port_end : Z)
  : exc (list Z * bool) :=
  r <- parse_tokens (split ","%char port_string) (range_ports port_start port_end) ;;
  Ok (sorted r.1, r.2).

Definition parse_ports (port_string : str) (port_start port_end : Z) : exc (list Z) :=
  r <- parse_ports_log port_string port_start port_end ;; Ok r.1.

(** ** Data classes *)

Record ScanSettings : Type := mkScanSettings {
  ip_start : str;
  ip_end : str;
  port_start : Z;
  port_end : Z;
  custom_ports : str;
  timeout : float;
  threads : Z;
  retry_count : Z;
  scan_adb : bool;
  scan_ssh : bool;
  scan_telnet : bool;
  scan_custom : bool;
  skip_ping : bool;
  use_async : bool;
  profile : str
}.

(** The text of a message is not rendered: a message is its template and
    the values that the f-string formats. *)
Inductive message : Type :=
| InvalidIpStart (ip : str)
| InvalidIpEnd (ip : str)
| InvalidPortStart (p : Z)
| InvalidPortEnd (p : Z)
| PortStartGreater
| InvalidThreads (n : Z)
| InvalidTimeout (t : float)
| MsgOK.

(** [0.1 <= timeout <= 10.0]; the first literal is the double nearest 0.1. *)
Definition timeout_ok (t : float) : bool :=
  PrimFloat.leb 0x1.999999999999ap-4%float t && PrimFloat.leb t 10%float.

(** [ScanSettings.validate] *)
Definition validate (self : ScanSettings) : exc (bool * message) :=
  v <- validate_ip (ip_start self) ;;
  if negb v then Ok (false, InvalidIpStart (ip_start self)) else
  v <- validate_ip (ip_end self) ;;
  if negb v then Ok (false, InvalidIpEnd (ip_end self)) else
  if negb (validate_port (port_start self))
  then Ok (false, InvalidPortStart (port_start self)) else
  if negb (validate_port (port_end self))
  then Ok (false, InvalidPortEnd (port_end self)) else
  if port_end self <? port_start self then Ok (false, PortStartGreater) else
  if negb (validate_threads (threads self))
  then Ok (false, InvalidThreads (threads self)) else
  if negb (timeout_ok (timeout self))
  then Ok (false, InvalidTimeout (timeout self)) else
  Ok (true, MsgOK).

(** [settings.threads = n] *)
Definition set_threads (n : Z) (s : ScanSettings) : ScanSettings :=
  mkScanSettings (ip_start s) (ip_end s) (port_start s) (port_end s)
    (custom_ports s) (timeout s) n (retry_count s) (scan_adb s) (scan_ssh s)
    (scan_telnet s) (scan_custom s) (skip_ping s) (use_async s) (profile s).

Record DeviceInfo : Type := mkDeviceInfo {
  ip : str;
  port : Z;
  device_type : str;
  status : str;
  device_id : str;
  manufacturer : str;
  model : str;
  version : str;
  timestamp : str
}.

Record ScanResult : Type := mkScanResult {
  devices : list DeviceInfo;
  total_scanned : Z;
  total_found : Z;
  scan_time : float;
  settings : ScanSettings;
  result_timestamp : str
}.

(** ** Notifications *)

Inductive text : Type :=
| TInvalid (m : message)                       (* [ERROR] {error_msg} *)
| TNoTargets                                   (* [ERROR] No valid IPs or ports to scan *)
| TScanStart (total : Z)                       (* [SCAN START] {total} targets *)
| TFound (ip : str) (port : Z) (kind : str)    (* [FOUND] {ip}:{port} ({type}) *)
| TProgress (scanned total : Z)                (* [PROGRESS] {scanned}/{total} *)
| TComplete (found : Z) (elapsed : float)      (* [COMPLETE] Found ... *)
| TCritical (e : exn)                          (* [ERROR] {str(e)} *)
| TStopped.                                    (* [STOPPED] Scan stopped *)

(** The [progress] argument: [scanned / total_targets * 100], or [100]. *)
Inductive percent : Type :=
| Ratio (scanned total : Z)
| Hundred.

(** The arguments of one call of [_notify]. *)
Record notification : Type := mkNotification {
  n_message : text;
  n_progress : option percent;
  n_devices : option Z
}.

(** ** The scanner *)

(** A [dict] with [str] keys: the items in insertion order. *)
Abbreviation dict V := (list (str * V)).

(** [d[k] = v]: a key that is present keeps its place. *)
Fixpoint dict_set {V : Type} (k : str) (v : V) (d : dict V) : dict V :=
  match d with
  | [] => [(k, v)]
  | (k', v') :: d' =>
      if bool_decide (k' = k) then (k, v) :: d' else (k', v') :: dict_set k v d'
  end.

(** [d.get(k)] *)
Fixpoint dict_get {V : Type} (k : str) (d : dict V) : option V :=
  match d with
  | [] => None
  | (k', v') :: d' => if bool_decide (k' = k) then Some v' else dict_get k d'
  end.

(** [list(d.values())] *)
Definition values {V : Type} (d : dict V) : list V := map snd d.

(** [len(x)] *)
Definition len {A : Type} (l : list A) : Z := Z.of_nat (length l).

Record ADBScanner : Type := mkADBScanner {
  is_scanning : bool;
  devices_found : dict DeviceInfo;
  callback : option (notification -> exc unit);
  scan_result : ScanResult
}.

Definition set_is_scanning (b : bool) (self : ADBScanner) : ADBScanner :=
  mkADBScanner b (devices_found self) (callback self) (scan_result self).

Definition set_devices_found (d : dict DeviceInfo) (self : ADBScanner) : ADBScanner :=
  mkADBScanner (is_scanning self) d (callback self) (scan_result self).

Definition set_scan_result (r : ScanResult) (self : ADBScanner) : ADBScanner :=
  mkADBScanner (is_scanning self) (devices_found self) (callback self) r.

(** [_notify]: the call is recorded in the trace, and the callback, when one
    is set, is invoked and may raise. *)
Definition notify (self : ADBScanner) (n : notification) (trace : list notification)
  : exc unit * list notification :=
  (match callback self with
   | Some cb => cb n
   | None => Ok tt
   end, trace ++ [n]).

(** [stop_scan] *)
Definition stop_scan (self : ADBScanner) (trace : list notification)
  : exc unit * ADBScanner * list notification :=
  let self := set_is_scanning false self in
  let (r, trace) := notify self (mkNotification TStopped None None) trace in
  (r, self, trace).

(** The key [f"{device.ip}:{device.port}"]. *)
Definition key_of (device : DeviceInfo) : str :=
  ip device ++ py ":" ++ str_ (port device).

(** What the scan loop sees of a completed future: whether another thread
    has called [stop_scan] since the previous check of the flag, and what
    [future.result()] gives. *)
Record event : Type := mkEvent {
  stop_called : bool;
  outcome : exc (option DeviceInfo)
}.

(** The variables of the loop. *)
Record loop_state : Type := mkLoop {
  engine : ADBScanner;
  scanned : Z;
  trace : list notification
}.

(** A [stop_scan] of another thread; its exception, if any, is its own. *)
Definition observe (stop : bool) (st : loop_state) : loop_state :=
  if stop then
    let '(_, self, tr) := stop_scan (engine st) (trace st) in
    mkLoop self (scanned st) tr
  else st.

(** The body of the inner [try]. *)
Definition try_unit (total_targets : Z) (result : exc (option DeviceInfo))
  (st : loop_state) : exc unit * loop_state :=
  match result with
  | Raise e => (Raise e, st)
  | Ok device =>
      let scanned := scanned st + 1 in
      match device with
      | Some device =>
          let self := set_devices_found
                        (dict_set (key_of device) device (devices_found (engine st)))
                        (engine st) in
          let (r, tr) :=
            notify self
              (mkNotification (TFound (ip device) (port device) (device_type device))
                 (Some (Ratio scanned total_targets))
                 (Some (len (devices_found self))))
              (trace st) in
          (r, mkLoop self scanned tr)
      | None =>
          if scanned mod 10 =? 0 then
            let (r, tr) :=
              notify (engine st)
                (mkNotification (TProgress scanned total_targets)
                   (Some (Ratio scanned total_targets)) None)
                (trace st) in
            (r, mkLoop (engine st) scanned tr)
          else (Ok tt, mkLoop (engine st) scanned (trace st))
      end
  end.

(** One iteration of [for future in as_completed(futures)]; the boolean is
    false when the iteration leaves the loop by [break]. *)
Definition loop_body (total_targets : Z) (ev : event) (st : loop_state)
  : bool * loop_state :=
  let st := observe (stop_called ev) st in
  if negb (is_scanning (engine st)) then (false, st)
  else
    let (r, st') := try_unit total_targets (outcome ev) st in
    match r with
    | Ok _ => (true, st')
    | Raise _ => (true, mkLoop (engine st') (scanned st' + 1) (trace st'))
    end.

Fixpoint scan_loop (total_targets : Z) (events : list event) (st : loop_state)
  : loop_state :=
  match events with
  | [] => st
  | ev :: rest =>
      let (continue, st') := loop_body total_targets ev st in
      if continue then scan_loop total_targets rest st' else st'
  end.

(** What the environment contributes to one call of [scan_async]. *)
Record world : Type := mkWorld {
  events : list event;            (* the futures, as [as_completed] yields them *)
  submit_error : option exn;      (* [executor.submit] fails *)
  start_time : float;             (* [time.time()] at the start *)
  end_time : float;               (* [time.time()] after the loop *)
  now : str                       (* [datetime.now().isoformat()] *)
}.

(** What one call of [scan_async] leaves behind. *)
Record run : Type := mkRun {
  raised : option exn;            (* the exception that leaves the call *)
  scanner : ADBScanner;           (* the scanner after the call *)
  notified : list notification;   (* the calls of [_notify], in order *)
  settings_after : ScanSettings;  (* the settings object after the call *)
  capped : bool;                  (* "Thread count capped at 200" was logged *)
  pool_size : option Z;           (* [max_workers] of the pool, if one was made *)
  report : option ScanResult      (* the [ScanResult] this call stored *)
}.

(** [[(ip, port) for ip in ips for port in ports]] *)
Definition targets_of (ips : list str) (ports : list Z) : list (str * Z) :=
  flat_map (fun ip => map (fun port => (ip, port)) ports) ips.

Definition is_empty {A : Type} (l : list A) : bool :=
  match l with
  | [] => true
  | _ => false
  end.

Definition to_raised (r : exc unit) : option exn :=
  match r with
  | Ok _ => None
  | Raise e => Some e
  end.

(** The body of the outer [try]: its result, the scanner, the trace, the
    size of the pool and the report, when it got that far. *)
Definition scan_body (self : ADBScanner) (settings : ScanSettings) (w : world)
  : exc unit * ADBScanner * list notification * option Z * option ScanResult :=
  let ips := generate_ip_range (ip_start settings) (ip_end settings) in
  match parse_ports (custom_ports settings) (port_start settings) (port_end settings) with
  | Raise e => (Raise e, self, [], None, None)
  | Ok ports =>
      if is_empty ips || is_empty ports then
        let (r, tr) := notify self (mkNotification TNoTargets None None) [] in
        (r, self, tr, None, None)
      else
        let targets := targets_of ips ports in
        let total_targets := len targets in
        let (r, tr) :=
          notify self (mkNotification (TScanStart total_targets) None None) [] in
        match r with
        | Raise e => (Raise e, self, tr, None, None)
        | Ok _ =>
            (* ThreadPoolExecutor(max_workers=settings.threads) *)
            if threads settings <=? 0 then (Raise ValueError, self, tr, None, None)
            else
              match submit_error w with
              | Some e => (Raise e, self, tr, Some (threads settings), None)
              | None =>
                  let st := scan_loop total_targets (events w) (mkLoop self 0 tr) in
                  let self := engine st in
                  let elapsed := PrimFloat.sub (end_time w) (start_time w) in
                  let result :=
                    mkScanResult (values (devices_found self)) (scanned st)
                      (len (devices_found self)) elapsed settings (now w) in
                  let self := set_scan_result result self in
                  let (r, tr) :=
                    notify self
                      (mkNotification (TComplete (len (devices_found self)) elapsed)
                         (Some Hundred) (Some (len (devices_found self))))
                      (trace st) in
                  (r, self, tr, Some (threads settings), Some result)
              end
        end
  end.

Definition scan_async (self : ADBScanner) (settings : ScanSettings) (w : world) : run :=
  match validate settings with
  | Raise e => mkRun (Some e) self [] settings false None None
  | Ok (false, error_msg) =>
      let (r, tr) := notify self (mkNotification (TInvalid error_msg) None None) [] in
      mkRun (to_raised r) self tr settings false None None
  | Ok (true, _) =>
      let capped := 200 <? threads settings in
      let settings := if capped then set_threads 200 settings else settings in
      let self := set_is_scanning true self in
      let self := set_devices_found [] self in
      let '(r, self, tr, pool, rep) := scan_body self settings w in
      let (r, tr) :=
        match r with
        | Ok _ => (Ok tt, tr)
        | Raise e => notify self (mkNotification (TCritical e) None None) tr
        end in
      (* finally *)
      mkRun (to_raised r) (set_is_scanning false self) tr settings capped pool rep
  end.

(** The defaults of the [ScanSettings] dataclass. *)
Definition default_settings : ScanSettings :=
  mkScanSettings (py "192.168.1.1") (py "192.168.1.255") 5037 5037
    (py "5037,5555,22,23") 1%float 50 2 true true true false false true
    (py "balanced").

(** [ADBScanner.__init__]; [now] is the time stamp of the empty result. *)
Definition new_scanner (now : str) : ADBScanner :=
  mkADBScanner false [] None (mkScanResult [] 0 0 0%float default_settings now).

(** ** CSV export *)

(** [device.to_dict()], every value as [csv] writes it. *)
Definition to_dict (device : DeviceInfo) : dict str :=
  [(py "ip", ip device);
   (py "port", str_ (port device));
   (py "device_type", device_type device);
   (py "status", status device);
   (py "device_id", device_id device);
   (py "manufacturer", manufacturer device);
   (py "model", model device);
   (py "version", version device);
   (py "timestamp", timestamp device)].

Definition fieldnames : list str :=
  [py "ip"; py "port"; py "device_type"; py "status"; py "device_id"; py "timestamp"].

(** [DictWriter._dict_to_list] with the default [extrasaction='raise'] and
    [restval='']: a key that is not a field name is an error. *)
Definition dict_to_list (fields : list str) (rowdict : dict str) : exc (list str) :=
  if forallb (fun kv => bool_decide (kv.1 ∈ fields)) rowdict
  then Ok (map (fun k => default [] (dict_get k rowdict)) fields)
  else Raise ValueError.

(** The [for device in self.scan_result.devices] loop: the rows of the file
    so far, and the exception that ended the loop, if any. *)
Fixpoint write_rows (fields : list str) (devs : list DeviceInfo) (file : list (list str))
  : exc unit * list (list str) :=
  match devs with
  | [] => (Ok tt, file)
  | device :: rest =>
      match dict_to_list fields (to_dict device) with
      | Ok row => write_rows fields rest (file ++ [row])
      | Raise e => (Raise e, file)
      end
  end.

(** [export_csv], for a path that can be opened: the rows of the file, and
    whether "CSV export error" was logged. *)
Definition export_csv (self : ADBScanner) : list (list str) * bool :=
  let (r, file) := write_rows fieldnames (devices (scan_result self)) [fieldnames] in
  (file, match r with Ok _ => false | Raise _ => true end).

(** ** The worker pool *)

Module Pool.

(** The futures of one scan: the units still queued in the executor, those
    a worker is running, the results not yet yielded by [as_completed],
    and the variables of the loop of [scan_async].  [looping] is false
    once the [for] loop has ended, by [break] or by exhaustion. *)
Record state : Type := mkState {
  queue : list (str * Z);
  running : list (str * Z);
  finished : list (exc (option DeviceInfo));
  loop : loop_state;
  looping : bool
}.

(** All targets have been submitted and the loop is about to start. *)
Definition init (targets : list (str * Z)) (st : loop_state) : state :=
  mkState targets [] [] st true.

Inductive label : Type :=
| Start (u : str * Z)                               (* a worker takes a unit *)
| Finish (u : str * Z) (r : exc (option DeviceInfo)) (* its probes are over *)
| Yield (r : exc (option DeviceInfo))               (* the loop gets a future *)
| Stop                                              (* another thread calls stop_scan *)
| Exhausted.                                        (* as_completed has no more *)

(** A record that [_identify_device] builds carries the unit's address
    and port. *)
Definition result_of (u : str * Z) (r : exc (option DeviceInfo)) : Prop :=
  forall d, r = Ok (Some d) -> (ip d, port d) = u.

(** [_scan_single_target] never reads [is_scanning]: a worker takes the
    next unit whenever it is free.  The flag is read by the loop only. *)
Inductive step (max_workers total_targets : Z) : state -> label -> state -> Prop :=
| step_start s u q :
    queue s = u :: q ->
    len (running s) < max_workers ->
    step max_workers total_targets s (Start u)
      (mkState q (running s ++ [u]) (finished s) (loop s) (looping s))
| step_finish s u r r1 r2 :
    running s = r1 ++ u :: r2 ->
    result_of u r ->
    step max_workers total_targets s (Finish u r)
      (mkState (queue s) (r1 ++ r2) (finished s ++ [r]) (loop s) (looping s))
| step_yield s r f1 f2 continue st' :
    looping s = true ->
    finished s = f1 ++ r :: f2 ->
    loop_body total_targets (mkEvent false r) (loop s) = (continue, st') ->
    step max_workers total_targets s (Yield r)
      (mkState (queue s) (running s) (f1 ++ f2) st' continue)
| step_stop s :
    step max_workers total_targets s Stop
      (mkState (queue s) (running s) (finished s) (observe true (loop s)) (looping s))
| step_exhausted s :
    looping s = true ->
    queue s = [] -> running s = [] -> finished s = [] ->
    step max_workers total_targets s Exhausted
      (mkState [] [] [] (loop s) false).

(** Executions. *)
Inductive steps (max_workers total_targets : Z) : state -> list label -> state -> Prop :=
| steps_nil s : steps max_workers total_targets s [] s
| steps_cons s l s' ls s'' :
    step max_workers total_targets s l s' ->
    steps max_workers total_targets s' ls s'' ->
    steps max_workers total_targets s (l :: ls) s''.

(** The [with] block is left, and [scan_async] goes on, only when every
    submitted unit has run: [shutdown(wait=True)]. *)
Definition drained (s : state) : Prop :=
  looping s = false /\ queue s = [] /\ running s = [].

End Pool.

(** ** Statements: auxiliary definitions *)

(** [power L k w]: [w] is a concatenation of [k] words of [L]. *)
Fixpoint power (L : str -> Prop) (k : nat) (w : str) : Prop :=
  match k with
  | O => w = []
  | S k' => exists w1 w2, w = w1 ++ w2 /\ L w1 /\ power L k' w2
  end.

(** The language of a pattern. *)
Fixpoint lang (r : regex) (w : str) : Prop :=
  match r with
  | Digit => exists c, w = [c] /\ isdecimal c = true
  | Chr a => w = [a]
  | Seq r1 r2 => exists w1 w2, w = w1 ++ w2 /\ lang r1 w1 /\ lang r2 w2
  | Rep r' lo hi => exists k, (lo <= k <= hi)%nat /\ power (lang r') k w
  end.

(** The value of a string of decimal digits. *)
Definition dec_from (acc : Z) (o : str) : Z :=
  fold_left (fun a c => 10 * a + digit_val c) o acc.

Definition dec (o : str) : Z := dec_from 0 o.

Definition digits (o : str) : bool := forallb isdecimal o.

(** One to three decimal digits. *)
Definition octet (o : str) : bool :=
  (1 <=? length o)%nat && (length o <=? 3)%nat && digits o.

Definition decimal_octet (o : str) : bool := octet o && (dec o <=? 255).

(** The validator as the specification words it: exactly four dot-separated
    decimal octets, each in [0,255], and no other character. *)
Definition dotted_quad (s : str) : bool :=
  match split "."%char s with
  | [o1; o2; o3; o4] =>
      decimal_octet o1 && decimal_octet o2 && decimal_octet o3 && decimal_octet o4
  | _ => false
  end.

(** [chomp s] is [Some t] when [s] is [t] followed by one newline. *)
Definition chomp (s : str) : option str :=
  match rev s with
  | c :: r => if Ascii.eqb c LF then Some (rev r) else None
  | [] => None
  end.

Definition quad (o1 o2 o3 o4 : str) : str :=
  o1 ++ "."%char :: o2 ++ "."%char :: o3 ++ "."%char :: o4.

(** What [validate_ip] accepts: a dotted quad, or a dotted quad followed by
    one newline. *)
Definition accepts (s : str) : bool :=
  dotted_quad s ||
  match chomp s with
  | Some t => dotted_quad t
  | None => false
  end.

(** Four octets; the first may have run over to 256 after the last address. *)
Definition octets (hi : Z) (t : list Z) : Prop :=
  exists a b c d, t = [a; b; c; d] /\
    0 <= a <= hi /\ 0 <= b <= 255 /\ 0 <= c <= 255 /\ 0 <= d <= 255.

(** The numeric value of an address string. *)
Definition ip_value (ip : str) : Z := tuple_int (ip_to_tuple ip).

(** The ports that one token adds. *)
Definition named (tok : str) : exc (gset Z) := parse_token tok ∅.

(** [names tok p]: the token is read without error and names port [p]. *)
Definition names (tok : str) (p : Z) : Prop :=
  exists ports, named tok = Ok ports /\ p ∈ ports.

(** The tokens that the loop reads: those before the first one that raises. *)
Fixpoint read_tokens (tokens : list str) : list str :=
  match tokens with
  | [] => []
  | t :: ts =>
      match named t with
      | Ok _ => t :: read_tokens ts
      | Raise _ => []
      end
  end.

Definition well_formed (tok : str) : bool :=
  match named tok with
  | Ok _ => true
  | Raise _ => false
  end.

(** The (address, port) key of a record. *)
Definition target_key (d : DeviceInfo) : str * Z := (ip d, port d).

(** The records that the loop receives, in order: those of the futures
    yielded before a [stop_scan] is observed. *)
Fixpoint discoveries (events : list event) : list DeviceInfo :=
  match events with
  | [] => []
  | ev :: rest =>
      if stop_called ev then []
      else match outcome ev with
           | Ok (Some d) => d :: discoveries rest
           | _ => discoveries rest
           end
  end.

Definition add_device (found : dict DeviceInfo) (d : DeviceInfo) : dict DeviceInfo :=
  dict_set (key_of d) d found.

(** The aggregation map after the discoveries [l]. *)
Definition aggregate (l : list DeviceInfo) : dict DeviceInfo :=
  fold_left add_device l [].

(** The last record discovered for a key. *)
Definition last_found (k : str * Z) (l : list DeviceInfo) : option DeviceInfo :=
  last (filter (fun d => target_key d = k) l).

(** An idle world: no future completes. *)
Definition quiet : world := mkWorld [] None 0%float 0%float [].

(** The string under which a target is stored. *)
Definition key_str (k : str * Z) : str := k.1 ++ py ":" ++ str_ k.2.

(** The concurrency claim as the specification has it: a request above the
    ceiling is reduced to 200 and logged, and the scan goes on. *)
Definition clamps_above_ceiling : Prop :=
  forall self settings w,
    200 < threads settings ->
    validate (set_threads 200 settings) = Ok (true, MsgOK) ->
    capped (scan_async self settings w) = true /\
    threads (settings_after (scan_async self settings w)) = 200.

(** Two records for one target, as two units for the same key would give. *)
Definition hit (kind : str) : DeviceInfo :=
  mkDeviceInfo (py "192.168.1.7") 5555 kind (py "online") [] [] [] [] [].

Definition two_hits : world :=
  mkWorld [mkEvent false (Ok (Some (hit (py "Unknown"))));
           mkEvent false (Ok None);
           mkEvent false (Ok (Some (hit (py "ADB"))))]
    None 0%float 1%float [].

(** The row that the tabular export should write for a record. *)
Definition row_of (d : DeviceInfo) : list str :=
  [ip d; str_ (port d); device_type d; status d; device_id d; timestamp d].

(** The stop claim as the specification has it: once the loop has observed
    the stop (it has left), no unit begins its probes. *)
Definition no_start_after_observation : Prop :=
  forall max_workers total targets st ls s l s',
    Pool.steps max_workers total (Pool.init targets st) ls s ->
    Pool.looping s = false ->
    Pool.step max_workers total s l s' ->
    forall u, l <> Pool.Start u.

(** A scanner in the middle of a scan. *)
Definition busy : loop_state :=
  mkLoop (set_is_scanning true (new_scanner [])) 0 [].

Definition unit1 : str * Z := (py "127.0.0.1", 9).
Definition unit2 : str * Z := (py "127.0.0.1", 10).

(** ** The probe layer *)

(** One blocking probe of a unit of work. *)
Inductive probe : Type :=
| Ping (ip : str)                                 (* ping -c 1 -W 500 ip *)
| Connect (ip : str) (port : Z) (timeout : float) (* a TCP connect *)
| AdbConnect (ip : str) (port : Z).               (* adb connect ip:port *)

(** The network as the probes meet it.  The first argument is the number of
    probes made before, so the same probe can be answered differently
    later.  An answer is what the library call returns, or its exception. *)
Record network : Type := mkNetwork {
  ping_run : nat -> str -> exc Z;               (* [subprocess.run(...).returncode] *)
  connect_ex : nat -> str -> Z -> float -> exc Z;   (* [sock.connect_ex((ip, port))] *)
  adb_run : nat -> str -> Z -> exc (str * Z);   (* [stdout] and [returncode] *)
  clock : nat -> str                            (* [datetime.now().isoformat()] *)
}.

(** A computation that probes: it extends the list of the probes made. *)
Definition probing (A : Type) : Type := list probe -> A * list probe.

Definition ret_p {A : Type} (a : A) : probing A := fun h => (a, h).

Definition bind_p {A B : Type} (m : probing A) (f : A -> probing B) : probing B :=
  fun h => let (a, h') := m h in f a h'.

Notation "x <~ m ;; k" := (bind_p m (fun x => k))
  (at level 100, m at next level, right associativity).

(** [_check_port]: any exception is a closed port. *)
Definition _check_port (net : network) (ip : str) (port : Z) (timeout : float)
  : probing bool :=
  fun h =>
    (match connect_ex net (length h) ip port timeout with
     | Ok result => result =? 0
     | Raise _ => false
     end, h ++ [Connect ip port timeout]).

(** [_ping_host]: any exception is an unreachable host. *)
Definition _ping_host (net : network) (ip : str) : probing bool :=
  fun h =>
    (match ping_run net (length h) ip with
     | Ok returncode => returncode =? 0
     | Raise _ => false
     end, h ++ [Ping ip]).

(** [c.lower()] on the modelled range: A-Z and the capital letters of
    Latin-1. *)
Definition lower_char (c : ascii) : ascii :=
  if ((65 <=? ord c) && (ord c <=? 90))
     || ((192 <=? ord c) && (ord c <=? 222) && negb (ord c =? 215))
  then ascii_of_N (Z.to_N (ord c + 32))
  else c.

(** [s.lower()] *)
Definition lower (s : str) : str := map lower_char s.

Fixpoint starts_with (p s : str) : bool :=
  match p, s with
  | [], _ => true
  | _ :: _, [] => false
  | a :: p', b :: s' => Ascii.eqb a b && starts_with p' s'
  end.

(** [p in s] for strings. *)
Fixpoint find_sub (p s : str) : bool :=
  starts_with p s ||
  match s with
  | [] => false
  | _ :: s' => find_sub p s'
  end.

(** The [adb connect] of [_identify_device]: whether it counts as
    connected; an exception is logged and counts as not connected. *)
Definition adb_check (net : network) (ip : str) (port : Z) : probing bool :=
  fun h =>
    (match adb_run net (length h) ip port with
     | Ok (stdout, returncode) =>
         find_sub (py "connected") (lower stdout) || (returncode =? 0)
     | Raise _ => false
     end, h ++ [AdbConnect ip port]).

(** [DeviceInfo(ip=ip, port=port, device_type=kind, status="online")] *)
Definition new_device (net : network) (ip : str) (port : Z) (kind : str)
  : probing (option DeviceInfo) :=
  fun h =>
    (Some (mkDeviceInfo ip port kind (py "online") [] [] [] [] (clock net (length h))), h).

Definition _identify_device (net : network) (ip : str) (port : Z)
  : probing (option DeviceInfo) :=
  adb <~ (if (port =? 5037) || (port =? 5555) then adb_check net ip port
          else ret_p false) ;;
  if adb then new_device net ip port (py "ADB") else
  ssh <~ (if port =? 22 then _check_port net ip port 0.5%float else ret_p false) ;;
  if ssh then new_device net ip port (py "SSH") else
  telnet <~ (if port =? 23 then _check_port net ip port 0.5%float else ret_p false) ;;
  if telnet then new_device net ip port (py "Telnet") else
  open <~ _check_port net ip port 0.5%float ;;
  if open then new_device net ip port (py "Unknown") else ret_p None.

Definition _scan_single_target (net : network) (ip : str) (port : Z)
  (settings : ScanSettings) : probing (option DeviceInfo) :=
  reachable <~ (if negb (skip_ping settings) then _ping_host net ip else ret_p true) ;;
  if negb reachable then ret_p None else
  open <~ _check_port net ip port (timeout settings) ;;
  if negb open then ret_p None else
  _identify_device net ip port.

(** ** JSON export *)

(** What [json.dump] is given. *)
#[warnings="-register-all"]
Inductive json : Type :=
| JStr (s : str)
| JInt (n : Z)
| JFloat (x : float)
| JList (items : list json)
| JDict (items : list (str * json)).

(** [asdict(device)] *)
Definition asdict (device : DeviceInfo) : json :=
  JDict [(py "ip", JStr (ip device));
         (py "port", JInt (port device));
         (py "device_type", JStr (device_type device));
         (py "status", JStr (status device));
         (py "device_id", JStr (device_id device));
         (py "manufacturer", JStr (manufacturer device));
         (py "model", JStr (model device));
         (py "version", JStr (version device));
         (py "timestamp", JStr (timestamp device))].

(** [export_json], for a path that can be opened: the document written. *)
Definition export_json (self : ADBScanner) : json :=
  JDict [(py "devices", JList (map asdict (devices (scan_result self))));
         (py "stats",
          JDict [(py "found", JInt (total_found (scan_result self)));
                 (py "scanned", JInt (total_scanned (scan_result self)));
                 (py "time", JFloat (scan_time (scan_result self)));
                 (py "timestamp", JStr (result_timestamp (scan_result self)))])].

(** A probe of the unit [(addr, p)] that [_scan_single_target] may make
    under the settings [cfg]. *)
Definition probe_of (addr : str) (p : Z) (cfg : ScanSettings) (pr : probe) : Prop :=
  match pr with
  | Ping a => a = addr /\ skip_ping cfg = false
  | Connect a q t => a = addr /\ q = p /\ (t = timeout cfg \/ t = 0.5%float)
  | AdbConnect a q => a = addr /\ q = p /\ (p = 5037 \/ p = 5555)
  end.

(** A network on which the host answers a ping and the port accepts every
    connection. *)
Definition open_network : network :=
  mkNetwork (fun _ _ => Ok 0) (fun _ _ _ _ => Ok 0)
    (fun _ _ _ => Raise RuntimeError) (fun _ => []).

(** A network on which nothing answers. *)
Definition dead_network : network :=
  mkNetwork (fun _ _ => Ok 1) (fun _ _ _ _ => Ok 111)
    (fun _ _ _ => Raise RuntimeError) (fun _ => []).

(** Whether an answer of [adb connect] counts as connected. *)
Definition adb_connected (a : exc (str * Z)) : bool :=
  match a with
  | Ok (stdout, returncode) => find_sub (py "connected") (lower stdout) || (returncode =? 0)
  | Raise _ => false
  end.

(** The classification of an open port. *)
Definition kind_of (p : Z) (adb : bool) : str :=
  if ((p =? 5037) || (p =? 5555)) && adb then py "ADB"
  else if p =? 22 then py "SSH"
  else if p =? 23 then py "Telnet"
  else py "Unknown".

(** The four octets of a 32-bit value. *)
Definition tuple_of (n : Z) : list Z :=
  [n / 16777216; (n / 65536) mod 256; (n / 256) mod 256; n mod 256].

(** The dotted quad of a 32-bit value, without leading zeros. *)
Definition address_of (n : Z) : str := dotted (tuple_of n).

(** The number of futures that the loop takes before it observes a stop. *)
Fixpoint consumed (events : list event) : Z :=
  match events with
  | [] => 0
  | ev :: rest => if stop_called ev then 0 else 1 + consumed rest
  end.

(** A callback that never raises (or no callback at all). *)
Definition quiet_callback (self : ADBScanner) : Prop :=
  match callback self with
  | Some cb => forall n, cb n = Ok tt
  | None => True
  end.

(** The same world with other futures. *)
Definition with_events (events : list event) (w : world) : world :=
  mkWorld events (submit_error w) (start_time w) (end_time w) (now w).

(** A scanner whose callback raises on every [FOUND] notification. *)
Definition picky_scanner : ADBScanner :=
  mkADBScanner false []
    (Some (fun n => match n_message n with
                    | TFound _ _ _ => Raise RuntimeError
                    | _ => Ok tt
                    end))
    (mkScanResult [] 0 0 0%float default_settings []).

(** Reading back what [export_json] writes. *)
Definition json_str (j : json) : option str :=
  match j with
  | JStr s => Some s
  | _ => None
  end.

Definition json_int (j : json) : option Z :=
  match j with
  | JInt n => Some n
  | _ => None
  end.

Definition device_of_json (j : json) : option DeviceInfo :=
  match j with
  | JDict items =>
      a ← dict_get (py "ip") items ≫= json_str;
      p ← dict_get (py "port") items ≫= json_int;
      k ← dict_get (py "device_type") items ≫= json_str;
      s ← dict_get (py "status") items ≫= json_str;
      i ← dict_get (py "device_id") items ≫= json_str;
      f ← dict_get (py "manufacturer") items ≫= json_str;
      m ← dict_get (py "model") items ≫= json_str;
      v ← dict_get (py "version") items ≫= json_str;
      t ← dict_get (py "timestamp") items ≫= json_str;
      Some (mkDeviceInfo a p k s i f m v t)
  | _ => None
  end.

(** The records, the found count and the scanned count of a document. *)
Definition report_of_json (j : json) : option (list DeviceInfo * Z * Z) :=
  match j with
  | JDict items =>
      match dict_get (py "devices") items, dict_get (py "stats") items with
      | Some (JList ds), Some (JDict stats) =>
          devs ← mapM device_of_json ds;
          found ← dict_get (py "found") stats ≫= json_int;
          scanned ← dict_get (py "scanned") stats ≫= json_int;
          Some (devs, found, scanned)
      | _, _ => None
      end
  | _ => None
  end.

Definition is_found (n : notification) : bool :=
  match n_message n with
  | TFound _ _ _ => true
  | _ => false
  end.

Definition is_progress (n : notification) : bool :=
  match n_message n with
  | TProgress _ _ => true
  | _ => false
  end.

(** How many notifications of a kind a trace holds. *)
Definition count (kind : notification -> bool) (ns : list notification) : Z :=
  len (List.filter kind ns).

(** * Properties *)

(** ** The model on concrete inputs *)

Example split_empty_token : split ","%char (py "a,,b") = [py "a"; py ""; py "b"].
Proof. reflexivity. Qed.

Example int_underscore : int_ (py " 1_0 ") = Ok 10 /\ int_ (py "1__0") = Raise ValueError.
Proof. split; reflexivity. Qed.

Example int_signed : int_ (py "-5") = Ok (-5) /\ int_ (py "+") = Raise ValueError.
Proof. split; reflexivity. Qed.

(** [int] does not skip the separators FS..US, which [str.strip] does. *)
Example int_separator :
  int_ (ascii_of_nat 28 :: py "1") = Raise ValueError /\
  strip (ascii_of_nat 28 :: py "1") = py "1" /\
  int_ (ascii_of_nat 160 :: py "1" ++ [ascii_of_nat 133]) = Ok 1.
Proof. repeat split; reflexivity. Qed.

Example int_digit_limit :
  int_ (replicate 4300 "0"%char) = Ok 0 /\
  int_ (replicate 4301 "0"%char) = Raise ValueError /\
  int_ (py "-" ++ replicate 4300 "0"%char ++ py "_0") = Raise ValueError.
Proof. vm_compute. repeat split; reflexivity. Qed.

Example range_rolls_over :
  generate_ip_range (py "10.0.0.254") (py "10.0.1.1")
  = [py "10.0.0.254"; py "10.0.0.255"; py "10.0.1.0"; py "10.0.1.1"].
Proof. vm_compute. reflexivity. Qed.

Example range_ends_at_top :
  generate_ip_range (py "255.255.255.254") (py "255.255.255.255")
  = [py "255.255.255.254"; py "255.255.255.255"].
Proof. vm_compute. reflexivity. Qed.

Example ports_silent_skips :
  parse_ports_log (py "22, 1-2-3 ,80, 100 - 101, 0, 70000, 9-8") 5037 5037
  = Ok ([22; 80; 100; 101; 5037], false).
Proof. vm_compute. reflexivity. Qed.

Example ports_separator_in_token :
  parse_ports_log (py "1" ++ ascii_of_nat 28 :: py "-3,80") 5037 5037
  = Ok ([5037], true) /\
  parse_ports_log (py "80,1" ++ ascii_of_nat 28 :: py "-3") 5037 5037
  = Ok ([80; 5037], true).
Proof. vm_compute. split; reflexivity. Qed.

Example ports_trailing_comma :
  parse_ports_log (py "22,80,") 0 5037 = Ok ([22; 80], true).
Proof. vm_compute. reflexivity. Qed.
(** ** The regular expression matcher *)

Lemma times_power (f : str -> list str) (L : str -> Prop) :
  (forall s rest, rest ∈ f s <-> exists w, s = w ++ rest /\ L w) ->
  forall k s rest, rest ∈ times f k s <-> exists w, s = w ++ rest /\ power L k w.
Proof.
  intros Hf k. induction k as [|k IH]; intros s rest; simpl.
  - rewrite list_elem_of_singleton. split.
    + intros ->. exists []. done.
    + intros (w & -> & ->). done.
  - rewrite list_elem_of_In, in_flat_map. split.
    + intros (mid & Hmid & Hrest).
      apply list_elem_of_In, Hf in Hmid as (w1 & -> & Hw1).
      apply list_elem_of_In, IH in Hrest as (w2 & -> & Hw2).
      exists (w1 ++ w2). rewrite <- app_assoc. split; [done|]. by exists w1, w2.
    + intros (w & -> & w1 & w2 & -> & Hw1 & Hw2).
      exists (w2 ++ rest). split.
      * apply list_elem_of_In, Hf. exists w1. by rewrite <- app_assoc.
      * apply list_elem_of_In, IH. by exists w2.
Qed.

(** The matcher is sound and complete for the language. *)
Lemma rests_lang (r : regex) :
  forall s rest, rest ∈ rests r s <-> exists w, s = w ++ rest /\ lang r w.
Proof.
  induction r as [|a|r1 IH1 r2 IH2|r IH lo hi]; intros s rest; simpl.
  - destruct s as [|c s'].
    + split; [by intros ?%elem_of_nil|]. intros (w & Hs & c & -> & _). done.
    + destruct (isdecimal c) eqn:Hc.
      * rewrite list_elem_of_singleton. split.
        -- intros ->. exists [c]. split; [done|]. by exists c.
        -- intros (w & Hs & c' & -> & _). simpl in Hs. congruence.
      * split; [by intros ?%elem_of_nil|].
        intros (w & Hs & c' & -> & Hc'). simpl in Hs. congruence.
  - destruct s as [|c s'].
    + split; [by intros ?%elem_of_nil|]. intros (w & Hs & ->). done.
    + destruct (Ascii.eqb c a) eqn:Hc.
      * apply Ascii.eqb_eq in Hc as ->. rewrite list_elem_of_singleton. split.
        -- intros ->. by exists [a].
        -- intros (w & Hs & ->). simpl in Hs. congruence.
      * apply Ascii.eqb_neq in Hc. split; [by intros ?%elem_of_nil|].
        intros (w & Hs & ->). simpl in Hs. congruence.
  - rewrite list_elem_of_In, in_flat_map. split.
    + intros (mid & Hmid & Hrest).
      apply list_elem_of_In, IH1 in Hmid as (w1 & -> & Hw1).
      apply list_elem_of_In, IH2 in Hrest as (w2 & -> & Hw2).
      exists (w1 ++ w2). rewrite <- app_assoc. split; [done|]. by exists w1, w2.
    + intros (w & -> & w1 & w2 & -> & Hw1 & Hw2).
      exists (w2 ++ rest). split.
      * apply list_elem_of_In, IH1. exists w1. by rewrite <- app_assoc.
      * apply list_elem_of_In, IH2. by exists w2.
  - rewrite list_elem_of_In, in_flat_map. split.
    + intros (k & Hk & Hrest). apply in_seq in Hk.
      apply list_elem_of_In, (times_power _ _ IH) in Hrest as (w & -> & Hw).
      exists w. split; [done|]. exists k. split; [lia|done].
    + intros (w & -> & k & Hk & Hw). exists k. split.
      * apply in_seq. lia.
      * apply list_elem_of_In, (times_power _ _ IH). by exists w.
Qed.

(** ** Strings *)

Lemma digit_not_space c : isdecimal c = true -> int_space c = false.
Proof. destruct c as [[] [] [] [] [] [] [] []]; vm_compute; congruence. Qed.

Lemma digit_not_char c a : isdecimal a = false -> isdecimal c = true -> Ascii.eqb c a = false.
Proof.
  intros Ha Hc. destruct (Ascii.eqb_spec c a) as [->|]; [congruence|done].
Qed.

Lemma split_cons_sep sep s : split sep (sep :: s) = [] :: split sep s.
Proof. simpl. by rewrite Ascii.eqb_refl. Qed.

Lemma split_not_nil sep s : split sep s <> [].
Proof. destruct s as [|c s]; simpl; [done|]. destruct (Ascii.eqb c sep); [done|]. by destruct (split sep s). Qed.

Lemma split_app sep w s :
  contains sep w = false -> split sep (w ++ sep :: s) = w :: split sep s.
Proof.
  induction w as [|c w IH]; simpl; intros Hw.
  - by rewrite Ascii.eqb_refl.
  - apply orb_false_iff in Hw as [Hc Hw]. rewrite Ascii.eqb_sym in Hc.
    rewrite Hc. by rewrite IH.
Qed.

Lemma split_nosep sep w : contains sep w = false -> split sep w = [w].
Proof.
  induction w as [|c w IH]; simpl; intros Hw; [done|].
  apply orb_false_iff in Hw as [Hc Hw]. rewrite Ascii.eqb_sym in Hc.
  rewrite Hc. by rewrite IH.
Qed.

Lemma split_join sep s : join [sep] (split sep s) = s.
Proof.
  induction s as [|c s IH]; simpl; [done|].
  destruct (Ascii.eqb_spec c sep) as [->|Hc].
  - simpl. pose proof (split_not_nil sep s). destruct (split sep s); [done|].
    by rewrite IH.
  - pose proof (split_not_nil sep s). destruct (split sep s) as [|p ps] eqn:E; [done|].
    simpl in *. destruct ps; simpl in *; by rewrite <- IH.
Qed.

Lemma split_contains sep s p : p ∈ split sep s -> contains sep p = false.
Proof.
  revert p. induction s as [|c s IH]; simpl; intros p Hp.
  - apply list_elem_of_singleton in Hp as ->. done.
  - destruct (Ascii.eqb_spec c sep) as [->|Hc].
    + apply elem_of_cons in Hp as [->|Hp]; [done|]. by apply IH.
    + pose proof (split_not_nil sep s). destruct (split sep s) as [|q qs] eqn:E; [done|].
      apply elem_of_cons in Hp as [->|Hp].
      * simpl. rewrite IH; [|left]. rewrite orb_false_r.
        apply Ascii.eqb_neq. congruence.
      * apply IH. by right.
Qed.

Lemma lstrip_head c s : int_space c = false -> int_lstrip (c :: s) = c :: s.
Proof. simpl. by intros ->. Qed.

Lemma int_digits_digits o : forall acc prev,
  digits o = true -> o <> [] \/ prev = true ->
  int_digits acc prev o = Ok (dec_from acc o).
Proof.
  induction o as [|c o IH]; simpl; intros acc prev Ho Hne.
  - destruct Hne as [ ? | -> ]; done.
  - apply andb_true_iff in Ho as [Hc Ho]. rewrite Hc. apply IH; auto.
Qed.

Lemma digits_last o c : digits (o ++ [c]) = true -> isdecimal c = true.
Proof.
  unfold digits. rewrite forallb_app. simpl. intros H.
  apply andb_true_iff in H as [_ H]. by apply andb_true_iff in H as [H _].
Qed.

Lemma lstrip_digits o s : digits o = true -> o <> [] -> int_lstrip (o ++ s) = o ++ s.
Proof.
  destruct o as [|c o]; [done|]. simpl. intros H _.
  apply andb_true_iff in H as [H _]. by rewrite (digit_not_space _ H).
Qed.

Lemma lstrip_rev_digits o : digits o = true -> rev (int_lstrip (rev o)) = o.
Proof.
  intros Ho. destruct o as [|c o] using rev_ind; [done|].
  rewrite rev_app_distr. simpl rev at 2. simpl app.
  rewrite lstrip_head by (apply digit_not_space; eauto using digits_last).
  change (c :: rev o) with ([c] ++ rev o). rewrite rev_app_distr, rev_involutive. done.
Qed.

Lemma strip_digits o : digits o = true -> int_strip o = o.
Proof.
  intros Ho. unfold int_strip. destruct o as [|c o]; [done|].
  rewrite <- (app_nil_r (c :: o)) at 1. rewrite lstrip_digits by done.
  rewrite app_nil_r. by apply lstrip_rev_digits.
Qed.

Lemma strip_digits_LF o : digits o = true -> o <> [] -> int_strip (o ++ [LF]) = o.
Proof.
  intros Ho Hne. unfold int_strip. rewrite lstrip_digits by done.
  rewrite rev_app_distr. simpl. by apply lstrip_rev_digits.
Qed.

Lemma digit_count_digits o : digits o = true -> digit_count o = Z.of_nat (length o).
Proof.
  unfold digit_count, digits. induction o as [|c o IH]; cbn [forallb List.filter]; [done|].
  intros [Hc Ho]%andb_true_iff. rewrite Hc. cbn [length]. specialize (IH Ho). lia.
Qed.

Lemma int_literal_digits o :
  digits o = true -> o <> [] -> (length o <= 4300)%nat ->
  int_literal o = Ok (dec o).
Proof.
  intros Ho Hne Hl. unfold int_literal, int_max_str_digits.
  rewrite digit_count_digits by done.
  destruct (Z.ltb_spec 4300 (Z.of_nat (length o))); [lia|].
  apply int_digits_digits; auto.
Qed.

Lemma int_of_digits_body o :
  digits o = true -> o <> [] -> (length o <= 4300)%nat ->
  match o with
  | c :: body =>
      if Ascii.eqb c "+"%char then int_literal body
      else if Ascii.eqb c "-"%char then v <- int_literal body ;; Ok (- v)
      else int_literal (c :: body)
  | [] => Raise ValueError
  end = Ok (dec o).
Proof.
  intros Ho Hne Hl. pose proof (int_literal_digits o Ho Hne Hl) as E.
  destruct o as [|c o]; [done|].
  pose proof Ho as Ho'. simpl in Ho'. apply andb_true_iff in Ho' as [Hc _].
  by rewrite !(digit_not_char c) by done.
Qed.

Lemma int_digits_ok o :
  digits o = true -> o <> [] -> (length o <= 4300)%nat -> int_ o = Ok (dec o).
Proof.
  intros Ho Hne Hl. unfold int_. rewrite strip_digits by done.
  by apply int_of_digits_body.
Qed.

Lemma int_digits_LF o :
  digits o = true -> o <> [] -> (length o <= 4300)%nat ->
  int_ (o ++ [LF]) = Ok (dec o).
Proof.
  intros Ho Hne Hl. unfold int_. rewrite strip_digits_LF by done.
  by apply int_of_digits_body.
Qed.

(** ** The validator *)

Lemma power_digit k w :
  power (lang Digit) k w <-> length w = k /\ digits w = true.
Proof.
  revert w. induction k as [|k IH]; intros w; simpl.
  - split; [by intros ->|]. intros [H _]. by destruct w.
  - split.
    + intros (w1 & w2 & -> & (c & -> & Hc) & Hw2). apply IH in Hw2 as [<- Hd].
      simpl. by rewrite Hc, Hd.
    + intros [Hl Hd]. destruct w as [|c w]; [done|]. simpl in *.
      apply andb_true_iff in Hd as [Hc Hd].
      exists [c], w. split; [done|]. split; [by exists c|]. apply IH. split; [lia|done].
Qed.

Lemma lang_octet w : lang (Rep Digit 1 3) w <-> octet w = true.
Proof.
  unfold octet. cbn [lang]. split.
  - intros (k & Hk & [Hl Hd]%power_digit). rewrite Hd, Hl.
    rewrite andb_true_r. apply andb_true_iff. split; apply Nat.leb_le; lia.
  - intros [[H1 H2]%andb_true_iff Hd]%andb_true_iff.
    apply Nat.leb_le in H1, H2. exists (length w). split; [lia|]. by apply power_digit.
Qed.

Lemma lang_pattern w :
  lang pattern w <->
  exists o1 o2 o3 o4, w = quad o1 o2 o3 o4 /\
    octet o1 = true /\ octet o2 = true /\ octet o3 = true /\ octet o4 = true.
Proof.
  unfold pattern, quad. cbn [lang]. split.
  - intros (w1 & w4 & -> & (k & Hk & Hp) & H4).
    assert (k = 3%nat) as -> by lia. cbn [power] in Hp.
    destruct Hp as (a1 & r1 & -> & (o1 & d1 & -> & H1 & ->) & a2 & r2 & -> &
                    (o2 & d2 & -> & H2 & ->) & a3 & r3 & -> &
                    (o3 & d3 & -> & H3 & ->) & ->).
    exists o1, o2, o3, w4. rewrite <- !lang_octet.
    split; [|done]. by rewrite <- !app_assoc.
  - intros (o1 & o2 & o3 & o4 & -> & H1 & H2 & H3 & H4).
    apply lang_octet in H1, H2, H3, H4.
    exists (o1 ++ ["."%char] ++ o2 ++ ["."%char] ++ o3 ++ ["."%char]), o4.
    split; [by rewrite <- !app_assoc|]. split; [|done].
    exists 3%nat. split; [lia|]. cbn [power].
    exists (o1 ++ ["."%char]), (o2 ++ ["."%char] ++ o3 ++ ["."%char]).
    split; [by rewrite <- !app_assoc|]. split; [by exists o1, ["."%char]|].
    exists (o2 ++ ["."%char]), (o3 ++ ["."%char]).
    split; [by rewrite <- !app_assoc|]. split; [by exists o2, ["."%char]|].
    exists (o3 ++ ["."%char]), []. rewrite app_nil_r.
    split; [done|]. split; [by exists o3, ["."%char]|done].
Qed.

Lemma digits_no_dot o : digits o = true -> contains "."%char o = false.
Proof.
  unfold contains, digits. induction o as [|c o IH]; cbn [existsb forallb]; [done|].
  intros [Hc Ho]%andb_true_iff.
  rewrite IH by done. rewrite Ascii.eqb_sym, (digit_not_char c) by done. done.
Qed.

Lemma octet_digits o : octet o = true -> digits o = true /\ o <> [].
Proof.
  unfold octet. intros [[H1 _]%andb_true_iff Hd]%andb_true_iff.
  split; [done|]. intros ->. done.
Qed.

Lemma octet_length o : octet o = true -> (length o <= 4300)%nat.
Proof.
  unfold octet. intros [[_ H]%andb_true_iff _]%andb_true_iff.
  apply Nat.leb_le in H. lia.
Qed.

Lemma int_octet o rest :
  octet o = true -> rest = [] \/ rest = [LF] -> int_ (o ++ rest) = Ok (dec o).
Proof.
  intros Ho Hr. pose proof (octet_length o Ho) as Hl.
  apply octet_digits in Ho as [Ho Hne].
  destruct Hr as [->| ->]; [rewrite app_nil_r; by apply int_digits_ok|
                            by apply int_digits_LF].
Qed.

Lemma int_octet_nil o : octet o = true -> int_ o = Ok (dec o).
Proof. intros Ho. rewrite <- (app_nil_r o) at 1. apply int_octet; auto. Qed.

Lemma contains_app c a b : contains c (a ++ b) = contains c a || contains c b.
Proof. unfold contains. apply existsb_app. Qed.

Lemma split_quad o1 o2 o3 o4 rest :
  octet o1 = true -> octet o2 = true -> octet o3 = true -> octet o4 = true ->
  contains "."%char rest = false ->
  split "."%char (quad o1 o2 o3 o4 ++ rest) = [o1; o2; o3; o4 ++ rest].
Proof.
  intros [H1 _]%octet_digits [H2 _]%octet_digits [H3 _]%octet_digits
         [H4 _]%octet_digits Hr.
  unfold quad. rewrite <- !app_assoc. simpl. rewrite <- !app_assoc. simpl.
  rewrite <- !app_assoc. simpl.
  rewrite !split_app by auto using digits_no_dot.
  rewrite split_nosep; [done|]. rewrite contains_app, Hr, digits_no_dot; done.
Qed.

Lemma dotted_quad_inv s :
  dotted_quad s = true ->
  exists o1 o2 o3 o4, s = quad o1 o2 o3 o4 /\
    decimal_octet o1 = true /\ decimal_octet o2 = true /\
    decimal_octet o3 = true /\ decimal_octet o4 = true.
Proof.
  unfold dotted_quad. pose proof (split_join "."%char s) as Hj.
  destruct (split "."%char s) as [|o1 [|o2 [|o3 [|o4 [|]]]]]; try done.
  intros [[[H1 H2]%andb_true_iff H3]%andb_true_iff H4]%andb_true_iff.
  exists o1, o2, o3, o4. split; [|done]. rewrite <- Hj. reflexivity.
Qed.

Lemma dec_from_nonneg o : forall acc, digits o = true -> 0 <= acc -> 0 <= dec_from acc o.
Proof.
  induction o as [|c o IH]; simpl; intros acc Ho Hacc; [done|].
  apply andb_true_iff in Ho as [Hc Ho]. apply IH; [done|].
  unfold isdecimal in Hc. unfold digit_val. lia.
Qed.

Lemma chomp_snoc t : chomp (t ++ [LF]) = Some t.
Proof. unfold chomp. rewrite rev_app_distr. simpl. by rewrite rev_involutive. Qed.

Lemma chomp_Some s t : chomp s = Some t -> s = t ++ [LF].
Proof.
  unfold chomp. destruct (rev s) as [|c r] eqn:E; [done|].
  destruct (Ascii.eqb_spec c LF) as [->|]; [|done]. intros [= <-].
  rewrite <- (rev_involutive s), E. done.
Qed.

Lemma chomp_digits o : digits o = true -> chomp o = None.
Proof.
  unfold chomp. destruct o as [|c o] using rev_ind; [done|].
  rewrite rev_app_distr. simpl. intros H%digits_last.
  by rewrite (digit_not_char c LF).
Qed.

Lemma chomp_quad o1 o2 o3 o4 : octet o4 = true -> chomp (quad o1 o2 o3 o4) = None.
Proof.
  intros [H4 Hne]%octet_digits. unfold quad, chomp.
  destruct o4 as [|c o4] using rev_ind; [done|].
  rewrite !app_comm_cons, !app_assoc, rev_app_distr. simpl.
  apply digits_last in H4. by rewrite (digit_not_char c LF).
Qed.

Lemma all_octets_quad o1 o2 o3 o4 rest :
  octet o1 = true -> octet o2 = true -> octet o3 = true -> octet o4 = true ->
  rest = [] \/ rest = [LF] ->
  all_octets [o1; o2; o3; o4 ++ rest] =
  Ok ((dec o1 <=? 255) && (dec o2 <=? 255) && (dec o3 <=? 255) && (dec o4 <=? 255)).
Proof.
  intros O1 O2 O3 O4 Hr.
  pose proof (int_octet_nil o1 O1) as E1. pose proof (int_octet_nil o2 O2) as E2.
  pose proof (int_octet_nil o3 O3) as E3. pose proof (int_octet o4 rest O4 Hr) as E4.
  apply octet_digits in O1 as [H1 N1], O2 as [H2 N2], O3 as [H3 N3], O4 as [H4 N4].
  pose proof (dec_from_nonneg o1 0 H1 ltac:(lia)).
  pose proof (dec_from_nonneg o2 0 H2 ltac:(lia)).
  pose proof (dec_from_nonneg o3 0 H3 ltac:(lia)).
  pose proof (dec_from_nonneg o4 0 H4 ltac:(lia)).
  fold (dec o1) in *. fold (dec o2) in *. fold (dec o3) in *. fold (dec o4) in *.
  cbn [all_octets]. rewrite E1, E2, E3, E4. cbn [bind].
  repeat match goal with
  | H : 0 <= ?x |- context [0 <=? ?x] =>
      replace (0 <=? x) with true by (symmetry; by apply Z.leb_le)
  end.
  cbn [andb].
  destruct (dec o1 <=? 255); [|done]. destruct (dec o2 <=? 255); [|done].
  destruct (dec o3 <=? 255); [|done]. by destruct (dec o4 <=? 255).
Qed.

Lemma dotted_quad_quad o1 o2 o3 o4 :
  octet o1 = true -> octet o2 = true -> octet o3 = true -> octet o4 = true ->
  dotted_quad (quad o1 o2 o3 o4) =
  (dec o1 <=? 255) && (dec o2 <=? 255) && (dec o3 <=? 255) && (dec o4 <=? 255).
Proof.
  intros H1 H2 H3 H4. unfold dotted_quad.
  rewrite <- (app_nil_r (quad o1 o2 o3 o4)), split_quad by done.
  rewrite app_nil_r. unfold decimal_octet. by rewrite H1, H2, H3, H4.
Qed.

Lemma dotted_quad_LF o1 o2 o3 o4 :
  octet o1 = true -> octet o2 = true -> octet o3 = true -> octet o4 = true ->
  dotted_quad (quad o1 o2 o3 o4 ++ [LF]) = false.
Proof.
  intros H1 H2 H3 H4. unfold dotted_quad. rewrite split_quad by done.
  assert (decimal_octet (o4 ++ [LF]) = false) as ->; [|by rewrite andb_false_r].
  unfold decimal_octet, octet, digits. rewrite forallb_app. simpl.
  by rewrite !andb_false_r.
Qed.

Theorem validate_ip_spec s : validate_ip s = Ok (accepts s).
Proof.
  unfold validate_ip, accepts. destruct (re_match pattern s) eqn:Hm; cbn [negb].
  - unfold re_match in Hm. apply existsb_exists in Hm as (rest & Hin & Hd).
    apply list_elem_of_In, rests_lang in Hin as (w & -> & Hw).
    apply lang_pattern in Hw as (o1 & o2 & o3 & o4 & -> & H1 & H2 & H3 & H4).
    assert (rest = [] \/ rest = [LF]) as Hr.
    { destruct rest as [|c [|]]; [by left| |done]. right.
      simpl in Hd. by apply Ascii.eqb_eq in Hd as ->. }
    rewrite split_quad by (destruct Hr as [->| ->]; done).
    rewrite all_octets_quad by done. f_equal.
    destruct Hr as [->| ->].
    + rewrite app_nil_r, chomp_quad by done.
      by rewrite dotted_quad_quad, orb_false_r.
    + by rewrite dotted_quad_LF, chomp_snoc, dotted_quad_quad.
  - f_equal. symmetry. apply orb_false_iff. split.
    + destruct (dotted_quad s) eqn:Hq; [|done].
      apply dotted_quad_inv in Hq as (o1 & o2 & o3 & o4 & -> & H1 & H2 & H3 & H4).
      apply andb_true_iff in H1 as [H1 _], H2 as [H2 _], H3 as [H3 _], H4 as [H4 _].
      assert (existsb at_dollar (rests pattern (quad o1 o2 o3 o4)) = true) as E;
        [|unfold re_match in Hm; congruence].
      apply existsb_exists. exists []. split; [|done].
      apply list_elem_of_In, rests_lang. exists (quad o1 o2 o3 o4).
      rewrite app_nil_r. split; [done|]. apply lang_pattern. by exists o1, o2, o3, o4.
    + destruct (chomp s) as [t|] eqn:Hc; [|done].
      apply chomp_Some in Hc as ->.
      destruct (dotted_quad t) eqn:Hq; [|done].
      apply dotted_quad_inv in Hq as (o1 & o2 & o3 & o4 & -> & H1 & H2 & H3 & H4).
      apply andb_true_iff in H1 as [H1 _], H2 as [H2 _], H3 as [H3 _], H4 as [H4 _].
      assert (existsb at_dollar (rests pattern (quad o1 o2 o3 o4 ++ [LF])) = true) as E;
        [|unfold re_match in Hm; congruence].
      apply existsb_exists. exists [LF]. split; [|done].
      apply list_elem_of_In, rests_lang. exists (quad o1 o2 o3 o4).
      split; [done|]. apply lang_pattern. by exists o1, o2, o3, o4.
Qed.

Lemma accepts_inv s :
  accepts s = true ->
  exists o1 o2 o3 o4 rest, s = quad o1 o2 o3 o4 ++ rest /\ (rest = [] \/ rest = [LF]) /\
    decimal_octet o1 = true /\ decimal_octet o2 = true /\
    decimal_octet o3 = true /\ decimal_octet o4 = true.
Proof.
  unfold accepts. intros [Hq|Hc]%orb_true_iff.
  - apply dotted_quad_inv in Hq as (o1 & o2 & o3 & o4 & -> & H).
    exists o1, o2, o3, o4, []. rewrite app_nil_r. auto.
  - destruct (chomp s) as [t|] eqn:E; [|done]. apply chomp_Some in E as ->.
    apply dotted_quad_inv in Hc as (o1 & o2 & o3 & o4 & -> & H).
    exists o1, o2, o3, o4, [LF]. auto.
Qed.

(** ** The address range *)

Lemma decimal_octet_inv o :
  decimal_octet o = true -> octet o = true /\ 0 <= dec o <= 255.
Proof.
  unfold decimal_octet. intros [Ho Hd]%andb_true_iff. split; [done|].
  apply octet_digits in Ho as [Ho _]. pose proof (dec_from_nonneg o 0 Ho).
  unfold dec in *. lia.
Qed.

Lemma map_int_quad o1 o2 o3 o4 rest :
  octet o1 = true -> octet o2 = true -> octet o3 = true -> octet o4 = true ->
  rest = [] \/ rest = [LF] ->
  ip_to_tuple (quad o1 o2 o3 o4 ++ rest) = [dec o1; dec o2; dec o3; dec o4].
Proof.
  intros H1 H2 H3 H4 Hr. unfold ip_to_tuple.
  rewrite split_quad by (destruct Hr as [->| ->]; done).
  cbn [map_int].
  by rewrite (int_octet_nil o1), (int_octet_nil o2), (int_octet_nil o3),
    (int_octet o4 rest) by done.
Qed.

Lemma valid_ip_tuple s : validate_ip s = Ok true -> octets 255 (ip_to_tuple s).
Proof.
  rewrite validate_ip_spec. intros [= Ha].
  apply accepts_inv in Ha as (o1 & o2 & o3 & o4 & rest & -> & Hr & H1 & H2 & H3 & H4).
  apply decimal_octet_inv in H1 as [H1 R1], H2 as [H2 R2], H3 as [H3 R3], H4 as [H4 R4].
  rewrite map_int_quad by done. by exists (dec o1), (dec o2), (dec o3), (dec o4).
Qed.

Lemma str_octet k : 0 <= k <= 255 -> octet (str_ k) = true /\ dec (str_ k) = k.
Proof.
  intros Hk.
  assert (forallb (fun k => octet (str_ k) && (dec (str_ k) =? k)) (seqZ 0 256) = true) as H
    by (vm_compute; reflexivity).
  rewrite forallb_forall in H.
  assert (In k (seqZ 0 256)) as Hin by (apply list_elem_of_In, elem_of_seqZ; lia).
  apply H, andb_true_iff in Hin as [H1 H2]. split; [done|lia].
Qed.

Lemma dotted_quad_str a b c d :
  dotted [a; b; c; d] = quad (str_ a) (str_ b) (str_ c) (str_ d).
Proof. reflexivity. Qed.

Lemma ip_to_tuple_dotted t : octets 255 t -> ip_to_tuple (dotted t) = t.
Proof.
  intros (a & b & c & d & -> & Ha & Hb & Hc & Hd).
  apply str_octet in Ha as [Ha Ea], Hb as [Hb Eb], Hc as [Hc Ec], Hd as [Hd Ed].
  rewrite dotted_quad_str, <- (app_nil_r (quad _ _ _ _)), map_int_quad by auto.
  by rewrite Ea, Eb, Ec, Ed.
Qed.

Lemma valid_dotted t : octets 255 t -> validate_ip (dotted t) = Ok true.
Proof.
  intros (a & b & c & d & -> & Ha & Hb & Hc & Hd).
  pose proof Ha as Ha'. pose proof Hb as Hb'. pose proof Hc as Hc'. pose proof Hd as Hd'.
  apply str_octet in Ha as [Ha Ea], Hb as [Hb Eb], Hc as [Hc Ec], Hd as [Hd Ed].
  rewrite validate_ip_spec. f_equal. unfold accepts.
  rewrite dotted_quad_str, dotted_quad_quad, Ea, Eb, Ec, Ed by done.
  apply orb_true_iff. left. repeat (apply andb_true_iff; split); lia.
Qed.

Lemma tuple_le_int t e :
  octets 256 t -> octets 255 e -> tuple_le t e = (tuple_int t <=? tuple_int e).
Proof.
  intros (a & b & c & d & -> & Ha & Hb & Hc & Hd)
         (a' & b' & c' & d' & -> & Ha' & Hb' & Hc' & Hd').
  cbn [tuple_le tuple_int].
  repeat match goal with
  | |- context [?x =? ?y] => destruct (Z.eqb_spec x y)
  end; lia.
Qed.

Lemma increment_octets t :
  octets 255 t ->
  exists t', increment t = Ok t' /\ octets 256 t' /\ tuple_int t' = tuple_int t + 1.
Proof.
  intros (a & b & c & d & -> & Ha & Hb & Hc & Hd).
  unfold increment, bump, over, getitem, setitem. cbn.
  destruct (255 <? d + 1) eqn:E3; cbn.
  - destruct (255 <? c + 1) eqn:E2; cbn.
    + destruct (255 <? b + 1) eqn:E1; cbn.
      * eexists. split; [done|]. split; [|cbn; lia].
        exists (a + 1), 0, 0, 0. repeat split; lia.
      * eexists. split; [done|]. split; [|cbn; lia].
        exists a, (b + 1), 0, 0. repeat split; lia.
    + eexists. split; [done|]. split; [|cbn; lia].
      exists a, b, (c + 1), 0. repeat split; lia.
  - eexists. split; [done|]. split; [|cbn; lia].
    exists a, b, c, (d + 1). repeat split; lia.
Qed.

Lemma octets_le t e :
  octets 256 t -> octets 255 e -> tuple_int t <= tuple_int e -> octets 255 t.
Proof.
  intros (a & b & c & d & -> & Ha & Hb & Hc & Hd)
         (a' & b' & c' & d' & -> & Ha' & Hb' & Hc' & Hd') Hle.
  cbn in Hle. exists a, b, c, d. repeat split; lia.
Qed.

(** The loop appends the addresses from [current] to [end_], in order, and
    stops before the fuel runs out. *)
Lemma ip_loop_spec e : octets 255 e ->
  forall fuel t ips, octets 256 t ->
    (Z.to_nat (tuple_int e - tuple_int t + 1) < fuel)%nat ->
    exists l, ip_loop fuel t e ips = Some (Ok (ips ++ l)) /\
      map ip_value l = seqZ (tuple_int t) (tuple_int e - tuple_int t + 1) /\
      Forall (fun ip => validate_ip ip = Ok true) l.
Proof.
  intros He fuel. induction fuel as [|fuel IH]; intros t ips Ht Hf; [lia|].
  cbn [ip_loop]. rewrite tuple_le_int by done.
  destruct (Z.leb_spec (tuple_int t) (tuple_int e)) as [Hle|Hgt].
  - pose proof (octets_le _ _ Ht He Hle) as Ht'.
    destruct (increment_octets _ Ht') as (t' & -> & Ho & Hv).
    destruct (IH t' (ips ++ [dotted t]) Ho ltac:(lia)) as (l & -> & Hl & Hval).
    exists (dotted t :: l). split; [by rewrite <- app_assoc|]. split.
    + cbn [map]. rewrite Hl, Hv. unfold ip_value at 1.
      rewrite ip_to_tuple_dotted by done.
      rewrite (seqZ_cons (tuple_int t)) by lia. f_equal. f_equal; lia.
    + constructor; [by apply valid_dotted|done].
  - exists []. rewrite app_nil_r. split; [done|]. split; [|done].
    by rewrite seqZ_nil by lia.
Qed.

Lemma seqZ_sorted m n : StronglySorted Z.lt (seqZ m n).
Proof.
  destruct (Z.le_gt_cases n 0) as [Hn|Hn]; [rewrite seqZ_nil by done; constructor|].
  rewrite <- (Z2Nat.id n) by lia. generalize (Z.to_nat n) as k. clear. intros k.
  revert m. induction k as [|k IH]; intros m.
  - rewrite seqZ_nil by done. constructor.
  - rewrite seqZ_cons by lia. constructor.
    + replace (Z.pred (Z.of_nat (S k))) with (Z.of_nat k) by lia. apply IH.
    + apply Forall_forall. intros x Hx%elem_of_seqZ. lia.
Qed.

Lemma generate_ip_range_valid ip_start ip_end :
  validate_ip ip_start = Ok true -> validate_ip ip_end = Ok true ->
  map ip_value (generate_ip_range ip_start ip_end)
    = seqZ (ip_value ip_start) (ip_value ip_end - ip_value ip_start + 1) /\
  Forall (fun ip => validate_ip ip = Ok true) (generate_ip_range ip_start ip_end).
Proof.
  intros Hs He. unfold generate_ip_range, invalid_range. rewrite Hs, He. cbn [bind negb].
  pose proof (valid_ip_tuple _ Hs) as Os. pose proof (valid_ip_tuple _ He) as Oe.
  assert (octets 256 (ip_to_tuple ip_start)) as Os'.
  { destruct Os as (a & b & c & d & -> & ? & ?). exists a, b, c, d. split; [done|]. lia. }
  destruct (ip_loop_spec _ Oe (ip_fuel (ip_to_tuple ip_start) (ip_to_tuple ip_end))
              (ip_to_tuple ip_start) [] Os') as (l & -> & Hl & Hv).
  - unfold ip_fuel. lia.
  - done.
Qed.

(** The range on the endpoints that [validate_ip] accepts and on those it
    rejects.  For accepted endpoints with [start <= end],
    [generate_ip_range] returns [end_int - start_int + 1] valid address
    strings whose numeric values are [start_int, start_int + 1, ..., end_int],
    hence strictly ascending; with [start > end] it returns the empty list;
    and with an endpoint that [validate_ip] rejects it returns the empty
    list.  The endpoints that [validate_ip] accepts are not only the dotted
    quads: a dotted quad followed by a newline is accepted too. *)
Lemma generate_ip_range_spec (ip_start ip_end : str) :
  (validate_ip ip_start = Ok true -> validate_ip ip_end = Ok true ->
   let ips := generate_ip_range ip_start ip_end in
   (ip_value ip_start <= ip_value ip_end ->
      Z.of_nat (length ips) = ip_value ip_end - ip_value ip_start + 1 /\
      map ip_value ips
        = seqZ (ip_value ip_start) (ip_value ip_end - ip_value ip_start + 1) /\
      StronglySorted Z.lt (map ip_value ips) /\
      Forall (fun ip => validate_ip ip = Ok true) ips) /\
   (ip_value ip_end < ip_value ip_start -> ips = [])) /\
  (validate_ip ip_start = Ok false \/ validate_ip ip_end = Ok false ->
   generate_ip_range ip_start ip_end = []).
Proof.
  split.
  - intros Hs He ips.
    destruct (generate_ip_range_valid _ _ Hs He) as [Hm Hv]. fold ips in Hm, Hv.
    split.
    + intros Hle. split; [|split; [done|split; [|done]]].
      * rewrite <- (length_map ip_value), Hm, length_seqZ. lia.
      * rewrite Hm. apply seqZ_sorted.
    + intros Hlt. rewrite seqZ_nil in Hm by lia. by destruct ips.
  - unfold generate_ip_range, invalid_range. intros [H|H].
    + by rewrite H.
    + rewrite H. rewrite (validate_ip_spec ip_start). cbn.
      by destruct (accepts ip_start).
Qed.

Lemma generate_ip_range_spec_witness :
  map ip_value (generate_ip_range (py "10.0.0.254") (py "10.0.1.1"))
  = [167772414; 167772415; 167772416; 167772417].
Proof.
  destruct (generate_ip_range_spec (py "10.0.0.254") (py "10.0.1.1")) as [H _].
  specialize (H ltac:(vm_compute; reflexivity) ltac:(vm_compute; reflexivity)).
  destruct H as [H _].
  specialize (H ltac:(vm_compute; discriminate)).
  destruct H as (_ & H & _). exact H.
Defined.

(** C1 (the code at the failing input): an endpoint made of a dotted quad
    and a newline is not a syntactically valid address -- it is not four
    dot-separated decimal octets -- and yet the range is not empty:
    [generate_ip_range] relies on [validate_ip], which accepts the newline,
    and [int] strips it, so the range is the one of the dotted quad.  It
    holds for either endpoint, and for both. *)
Theorem generate_ip_range_trailing_newline :
  dotted_quad (py "1.1.1.1" ++ [LF]) = false /\
  dotted_quad (py "1.1.1.2" ++ [LF]) = false /\
  generate_ip_range (py "1.1.1.1" ++ [LF]) (py "1.1.1.2")
    = [py "1.1.1.1"; py "1.1.1.2"] /\
  generate_ip_range (py "1.1.1.1") (py "1.1.1.2" ++ [LF])
    = [py "1.1.1.1"; py "1.1.1.2"] /\
  generate_ip_range (py "1.1.1.1" ++ [LF]) (py "1.1.1.2" ++ [LF])
    = [py "1.1.1.1"; py "1.1.1.2"].
Proof. vm_compute. repeat split; reflexivity. Qed.

(** Every address that the specification calls valid is accepted. *)
Lemma dotted_quad_valid s : dotted_quad s = true -> validate_ip s = Ok true.
Proof. intros H. rewrite validate_ip_spec. unfold accepts. by rewrite H. Qed.

(** The loop of [generate_ip_range] ends before its fuel does. *)
Lemma ip_loop_fuel ip_start ip_end :
  validate_ip ip_start = Ok true -> validate_ip ip_end = Ok true ->
  exists ips,
    ip_loop (ip_fuel (ip_to_tuple ip_start) (ip_to_tuple ip_end))
      (ip_to_tuple ip_start) (ip_to_tuple ip_end) [] = Some (Ok ips).
Proof.
  intros Hs He.
  pose proof (valid_ip_tuple _ Hs) as Os. pose proof (valid_ip_tuple _ He) as Oe.
  assert (octets 256 (ip_to_tuple ip_start)) as Os'.
  { destruct Os as (a & b & c & d & -> & ? & ?). exists a, b, c, d. split; [done|]. lia. }
  destruct (ip_loop_spec _ Oe (ip_fuel (ip_to_tuple ip_start) (ip_to_tuple ip_end))
              (ip_to_tuple ip_start) [] Os') as (l & H & _).
  - unfold ip_fuel. lia.
  - by exists l.
Qed.

(** ** The port specification *)

Lemma int_digits_raise s : forall acc prev e,
  int_digits acc prev s = Raise e -> e = ValueError.
Proof.
  induction s as [|c s IH]; intros acc prev e; simpl.
  - destruct prev; congruence.
  - destruct (isdecimal c); [apply IH|].
    destruct (Ascii.eqb c "_"%char); [|congruence].
    destruct prev; [apply IH|congruence].
Qed.

Lemma int_literal_raise s e : int_literal s = Raise e -> e = ValueError.
Proof.
  unfold int_literal. destruct (_ <? _); [congruence|apply int_digits_raise].
Qed.

Lemma int_raise s e : int_ s = Raise e -> e = ValueError.
Proof.
  unfold int_. destruct (int_strip s) as [|c body]; [congruence|].
  destruct (Ascii.eqb c "+"%char); [apply int_literal_raise|].
  destruct (Ascii.eqb c "-"%char); [|apply int_literal_raise].
  destruct (int_literal body) eqn:E; cbn; [congruence|].
  apply int_literal_raise in E. congruence.
Qed.

Lemma parse_token_raise tok ports e : parse_token tok ports = Raise e -> e = ValueError.
Proof.
  unfold parse_token. destruct (contains _ _).
  - destruct (split _ _) as [|x [|y [|]]]; try congruence.
    destruct (int_ x) eqn:Ex; cbn; [|apply int_raise in Ex; congruence].
    destruct (int_ y) eqn:Ey; cbn; [|apply int_raise in Ey; congruence].
    destruct (_ && _); congruence.
  - destruct (int_ _) eqn:Ex; cbn; [|apply int_raise in Ex; congruence].
    destruct (validate_port _); congruence.
Qed.

(** A token adds the same ports whatever the set holds already. *)
Lemma parse_token_named tok ports :
  parse_token tok ports =
  match named tok with
  | Ok added => Ok (ports ∪ added)
  | Raise e => Raise e
  end.
Proof.
  unfold named, parse_token.
  assert (ports = ports ∪ ∅) as Hid by (by rewrite (right_id_L ∅ (∪))).
  destruct (contains _ _).
  - destruct (split _ _) as [|x [|y [|]]]; try (by f_equal).
    destruct (int_ x); cbn; [|done]. destruct (int_ y); cbn; [|done].
    destruct (_ && _); [|by f_equal]. by rewrite (left_id_L ∅ (∪)).
  - destruct (int_ _); cbn; [|done].
    destruct (validate_port _); [|by f_equal]. by rewrite (left_id_L ∅ (∪)).
Qed.

Lemma parse_tokens_spec tokens : forall ports,
  exists added,
    parse_tokens tokens ports = Ok (ports ∪ added, negb (forallb well_formed tokens)) /\
    forall p, p ∈ added <-> exists tok, tok ∈ read_tokens tokens /\ names tok p.
Proof.
  induction tokens as [|t ts IH]; intros ports; cbn [parse_tokens read_tokens forallb].
  - exists ∅. split; [by rewrite (right_id_L ∅ (∪))|].
    intros p. split; [by intros ?%not_elem_of_empty|]. intros (tok & Htok & _). by apply elem_of_nil in Htok.
  - rewrite parse_token_named. unfold well_formed at 1.
    destruct (named t) as [added|e] eqn:Et.
    + destruct (IH (ports ∪ added)) as (added' & -> & Hadd).
      exists (added ∪ added'). split; [by rewrite (assoc_L (∪))|].
      intros p. rewrite elem_of_union, Hadd. split.
      * intros [Hp|(tok & Htok & Hn)].
        -- exists t. split; [left|]. by exists added.
        -- exists tok. split; [by right|done].
      * intros (tok & [->|Htok]%elem_of_cons & Hn).
        -- left. destruct Hn as (added0 & E0 & Hp). congruence.
        -- right. by exists tok.
    + pose proof (parse_token_raise t ∅ e Et) as ->.
      exists ∅. split; [by rewrite (right_id_L ∅ (∪))|].
      intros p. split; [by intros ?%not_elem_of_empty|]. intros (tok & Htok & _). by apply elem_of_nil in Htok.
Qed.

Lemma elem_of_sorted p (ports : gset Z) : p ∈ sorted ports <-> p ∈ ports.
Proof.
  unfold sorted. rewrite (merge_sort_Permutation Z.le (elements ports)).
  apply elem_of_elements.
Qed.

Lemma sorted_ascending (ports : gset Z) : StronglySorted Z.lt (sorted ports).
Proof.
  unfold sorted.
  assert (NoDup (merge_sort Z.le (elements ports))) as Hnd.
  { rewrite (merge_sort_Permutation Z.le (elements ports)). apply NoDup_elements. }
  assert (StronglySorted Z.le (merge_sort Z.le (elements ports))) as Hs
    by (apply StronglySorted_merge_sort; apply _).
  induction Hs as [|x l Hs IH Hall]; [constructor|].
  apply NoDup_cons in Hnd as [Hx Hnd]. constructor; [by apply IH|].
  apply Forall_forall. intros y Hy. rewrite Forall_forall in Hall.
  specialize (Hall y Hy). assert (x <> y) by (intros ->; done). lia.
Qed.

Lemma elem_of_range_ports p port_start port_end :
  p ∈ range_ports port_start port_end <->
  validate_port port_start = true /\ validate_port port_end = true /\
  port_start <= p <= port_end.
Proof.
  unfold range_ports, range. destruct (validate_port port_start); cbn [andb].
  - destruct (validate_port port_end).
    + rewrite elem_of_list_to_set, elem_of_seqZ. split; [intros ?|intros (_ & _ & ?)].
      * split; [done|]. split; [done|]. lia.
      * lia.
    + split; [by intros ?%not_elem_of_empty|]. intros (_ & ? & _). done.
  - split; [by intros ?%not_elem_of_empty|]. intros (? & _). done.
Qed.

Lemma parse_ports_log_spec port_string port_start port_end :
  exists ports,
    parse_ports_log port_string port_start port_end
      = Ok (ports, negb (forallb well_formed (split ","%char port_string))) /\
    StronglySorted Z.lt ports /\
    forall p, p ∈ ports <->
      (validate_port port_start = true /\ validate_port port_end = true /\
       port_start <= p <= port_end) \/
      exists tok, tok ∈ read_tokens (split ","%char port_string) /\ names tok p.
Proof.
  unfold parse_ports_log.
  destruct (parse_tokens_spec (split ","%char port_string)
              (range_ports port_start port_end)) as (added & -> & Hadd).
  cbn. eexists. split; [done|]. split; [apply sorted_ascending|].
  intros p. rewrite elem_of_sorted, elem_of_union, elem_of_range_ports, Hadd. done.
Qed.

(** What [parse_ports] returns.  [parse_ports("22,80,100-102", 5037, 5037)]
    is [22, 80, 100, 101, 102, 5037]; and for every input [parse_ports]
    returns a list in strictly ascending order (sorted, no port twice) whose
    members are the ports of the valid range [port_start..port_end] together
    with the ports named by the tokens that the loop reads, which are the
    tokens before the first malformed one. *)
Lemma parse_ports_spec :
  parse_ports (py "22,80,100-102") 5037 5037 = Ok [22; 80; 100; 101; 102; 5037] /\
  forall port_string port_start port_end,
    exists ports,
      parse_ports port_string port_start port_end = Ok ports /\
      StronglySorted Z.lt ports /\
      forall p, p ∈ ports <->
        (validate_port port_start = true /\ validate_port port_end = true /\
         port_start <= p <= port_end) \/
        exists tok, tok ∈ read_tokens (split ","%char port_string) /\ names tok p.
Proof.
  split; [vm_compute; reflexivity|].
  intros port_string port_start port_end. unfold parse_ports.
  destruct (parse_ports_log_spec port_string port_start port_end) as (ports & -> & H).
  by exists ports.
Qed.

(** C7 (the code at the failing input): the example of the specification
    evaluates as stated, but the result is not for every input the union of
    the range and the ports named in the specification string.  In
    ["22,x,80"] the token [80] names port 80, which belongs to that union,
    and the list returned is [22, 5037]: the loop has ended at [x].  The
    list is still ascending without duplicates. *)
Theorem parse_ports_omits_named_port :
  parse_ports (py "22,80,100-102") 5037 5037 = Ok [22; 80; 100; 101; 102; 5037] /\
  py "80" ∈ split ","%char (py "22,x,80") /\
  names (py "80") 80 /\
  parse_ports (py "22,x,80") 5037 5037 = Ok [22; 5037] /\
  80 ∉ [22; 5037].
Proof.
  split; [vm_compute; reflexivity|].
  split; [vm_compute; set_solver|].
  split; [exists {[80]}; split; [vm_compute; reflexivity|set_solver]|].
  split; [vm_compute; reflexivity|].
  rewrite !elem_of_cons, elem_of_nil. lia.
Qed.

(** With no malformed token every token is read. *)
Lemma read_tokens_all tokens :
  forallb well_formed tokens = true -> read_tokens tokens = tokens.
Proof.
  induction tokens as [|t ts IH]; cbn; [done|]. unfold well_formed at 1.
  destruct (named t); [|done]. cbn. intros H. by rewrite IH.
Qed.

(** C4 (the code at the failing input): the malformed token [x] ends the
    loop, so the well-formed token [80] after it adds nothing, although the
    same specification without [x] yields port 80; the call is not fatal and
    logs the warning. *)
Theorem parse_ports_drops_after_malformed :
  parse_ports_log (py "22,x,80") 5037 5037 = Ok ([22; 5037], true) /\
  parse_ports_log (py "22,80") 5037 5037 = Ok ([22; 80; 5037], false) /\
  well_formed (py "80") = true /\ well_formed (py "x") = false.
Proof. vm_compute. repeat split; reflexivity. Qed.

(** What a token names, in the words of the specification: a single
    integer that is a valid port, or a [low-high] range of valid ports. *)
Lemma names_single tok p :
  contains "-"%char (strip tok) = false ->
  names tok p <-> int_ (strip tok) = Ok p /\ validate_port p = true.
Proof.
  intros Hc. unfold names, named, parse_token. rewrite Hc.
  destruct (int_ (strip tok)) as [v|e]; cbn.
  - destruct (validate_port v) eqn:Hv.
    + split.
      * intros (ports & [= <-] & Hp). rewrite (left_id_L ∅ (∪)) in Hp.
        apply elem_of_singleton in Hp as ->. done.
      * intros [[= ->] _]. eexists. split; [done|].
        rewrite (left_id_L ∅ (∪)). by apply elem_of_singleton.
    + split.
      * intros (ports & [= <-] & Hp). by apply not_elem_of_empty in Hp.
      * intros [[= ->] ?]. congruence.
  - split; [by intros (ports & ? & _)|by intros [? _]].
Qed.

Lemma names_range tok p :
  contains "-"%char (strip tok) = true ->
  names tok p <->
  exists x y lo hi, split "-"%char (strip tok) = [x; y] /\
    int_ x = Ok lo /\ int_ y = Ok hi /\
    validate_port lo = true /\ validate_port hi = true /\ lo <= p <= hi.
Proof.
  intros Hc. unfold names, named, parse_token. rewrite Hc.
  destruct (split "-"%char (strip tok)) as [|x [|y [|z l]]].
  1,2,4: split; [intros (ports & [= <-] & Hp); by apply not_elem_of_empty in Hp|
                 intros (? & ? & ? & ? & ? & _); discriminate].
  destruct (int_ x) as [lo|e] eqn:Ex; cbn.
  2: { split; [by intros (ports & ? & _)|].
       intros (? & ? & ? & ? & [= <- <-] & ? & _). congruence. }
  destruct (int_ y) as [hi|e] eqn:Ey; cbn.
  2: { split; [by intros (ports & ? & _)|].
       intros (? & ? & ? & ? & [= <- <-] & ? & ? & _). congruence. }
  destruct (validate_port lo && validate_port hi && (lo <=? hi)) eqn:Hv.
  - apply andb_true_iff in Hv as [[Hlo Hhi]%andb_true_iff Hle]. split.
    + intros (ports & [= <-] & Hp). rewrite (left_id_L ∅ (∪)) in Hp.
      apply elem_of_list_to_set, elem_of_seqZ in Hp.
      exists x, y, lo, hi. repeat split; try done; lia.
    + intros (? & ? & lo' & hi' & [= <- <-] & Hx & Hy & _ & _ & Hp).
      assert (lo' = lo) as -> by congruence. assert (hi' = hi) as -> by congruence.
      eexists. split; [done|]. rewrite (left_id_L ∅ (∪)).
      apply elem_of_list_to_set, elem_of_seqZ. lia.
  - split.
    + intros (ports & [= <-] & Hp). by apply not_elem_of_empty in Hp.
    + intros (? & ? & lo' & hi' & [= <- <-] & Hx & Hy & Hlo & Hhi & Hp).
      assert (lo' = lo) as -> by congruence. assert (hi' = hi) as -> by congruence.
      rewrite Hlo, Hhi in Hv. cbn in Hv. apply Z.leb_gt in Hv. lia.
Qed.

(** The examples of the specification, on the code. *)
Lemma validate_ip_examples :
  validate_ip (py "256.1.1.1") = Ok false /\
  validate_ip (py "1.1.1") = Ok false /\
  validate_ip (py "abc.def.1.1") = Ok false /\
  validate_ip (py " 1.1.1.1") = Ok false /\
  validate_ip (py "1.1.1.1 ") = Ok false /\
  validate_ip (py "::1") = Ok false /\
  validate_ip (py "localhost") = Ok false /\
  validate_ip (py "0.0.0.0") = Ok true /\
  validate_ip (py "255.255.255.255") = Ok true.
Proof. vm_compute. repeat split; reflexivity. Qed.

(** C2 (the code at the failing input): a dotted quad followed by a newline
    is not four dot-separated decimal octets, and [validate_ip] accepts it:
    [$] matches before a trailing newline and [int] strips it. *)
Theorem validate_ip_trailing_newline :
  dotted_quad (py "1.1.1.1" ++ [LF]) = false /\
  validate_ip (py "1.1.1.1" ++ [LF]) = Ok true.
Proof. vm_compute. split; reflexivity. Qed.

(** Apart from that newline the validator is the one of the specification. *)
Lemma validate_ip_no_newline s :
  chomp s = None -> validate_ip s = Ok (dotted_quad s).
Proof.
  intros H. rewrite validate_ip_spec. unfold accepts. rewrite H.
  by rewrite orb_false_r.
Qed.

(** ** Keys *)

Lemma app_sep_inj (c : ascii) (a1 a2 b1 b2 : str) :
  c ∉ b1 -> c ∉ b2 -> a1 ++ c :: b1 = a2 ++ c :: b2 -> a1 = a2 /\ b1 = b2.
Proof.
  intros H1 H2. revert a2. induction a1 as [|x a1 IH]; intros [|y a2]; simpl; intros E.
  - by injection E.
  - injection E as Ec Eb. subst. exfalso. apply H1. apply elem_of_app. right. left.
  - injection E as Ec Eb. subst. exfalso. apply H2. apply elem_of_app. right. left.
  - injection E as Ec Eb. subst. destruct (IH _ Eb) as [-> ->]. done.
Qed.

Lemma uint_no_colon d : ":"%char ∉ list_ascii_of_string (NilEmpty.string_of_uint d).
Proof.
  induction d; simpl; [apply not_elem_of_nil|..];
    (apply not_elem_of_cons; split; [discriminate|done]).
Qed.

Lemma str_no_colon n : ":"%char ∉ str_ n.
Proof.
  unfold str_, py. destruct (Z.to_int n) as [d|d]; simpl.
  - apply uint_no_colon.
  - apply not_elem_of_cons. split; [discriminate|apply uint_no_colon].
Qed.

Lemma str_inj n m : str_ n = str_ m -> n = m.
Proof.
  unfold str_, py. intros E.
  apply (f_equal string_of_list_ascii) in E.
  rewrite !string_of_list_ascii_of_string in E.
  apply (f_equal NilEmpty.int_of_string) in E. rewrite !NilEmpty.isi in E.
  injection E as E. by apply DecimalZ.to_int_inj.
Qed.

(** The string key determines the address and the port. *)
Lemma key_of_inj d1 d2 : key_of d1 = key_of d2 -> target_key d1 = target_key d2.
Proof.
  unfold key_of, target_key. simpl. intros E.
  apply app_sep_inj in E as [-> E]; [|apply str_no_colon..].
  by apply str_inj in E as ->.
Qed.

(** ** The aggregation map *)

Lemma dict_get_set {V} (k k' : str) (v : V) (d : dict V) :
  dict_get k' (dict_set k v d) = if bool_decide (k = k') then Some v else dict_get k' d.
Proof.
  induction d as [|[k0 v0] d IH]; simpl.
  - done.
  - destruct (bool_decide_reflect (k0 = k)) as [->|Hne]; simpl.
    + by destruct (bool_decide (k = k')).
    + rewrite IH. destruct (bool_decide_reflect (k0 = k')) as [->|]; [|done].
      by rewrite bool_decide_eq_false_2.
Qed.

Lemma dict_set_entries {V} (k : str) (v : V) (d : dict V) e :
  e ∈ dict_set k v d -> e = (k, v) \/ e ∈ d.
Proof.
  induction d as [|[k0 v0] d IH]; simpl.
  - intros ->%list_elem_of_singleton. by left.
  - destruct (bool_decide (k0 = k)).
    + intros [->|?]%elem_of_cons; [by left|]. right. by right.
    + intros [->|?]%elem_of_cons; [right; left|].
      destruct (IH H) as [->|?]; [by left|]. right. by right.
Qed.

Lemma dict_set_keys {V} (k : str) (v : V) (d : dict V) :
  NoDup (map fst d) ->
  NoDup (map fst (dict_set k v d)) /\
  forall k', k' ∈ map fst (dict_set k v d) <-> k' = k \/ k' ∈ map fst d.
Proof.
  induction d as [|[k0 v0] d IH]; simpl; intros Hnd.
  - split; [apply NoDup_singleton|]. intros k'. rewrite list_elem_of_singleton.
    split; [by left|]. intros [?|?%elem_of_nil]; done.
  - apply NoDup_cons in Hnd as [Hk0 Hnd]. destruct (IH Hnd) as [IH1 IH2].
    destruct (bool_decide_reflect (k0 = k)) as [->|Hne]; simpl.
    + split; [by apply NoDup_cons|]. intros k'. rewrite elem_of_cons. tauto.
    + split.
      * apply NoDup_cons. split; [|done]. rewrite IH2. intros [?|?]; done.
      * intros k'. rewrite !elem_of_cons, IH2. tauto.
Qed.

Lemma dict_get_values {V} (d : dict V) (v : V) :
  NoDup (map fst d) ->
  v ∈ values d <-> exists k, (k, v) ∈ d /\ dict_get k d = Some v.
Proof.
  unfold values. induction d as [|[k0 v0] d IH]; simpl; intros Hnd.
  - split; [by intros ?%elem_of_nil|]. by intros (k & ?%elem_of_nil & _).
  - apply NoDup_cons in Hnd as [Hk0 Hnd]. rewrite elem_of_cons, (IH Hnd). split.
    + intros [->|(k & Hin & Hget)].
      * exists k0. split; [left|]. by rewrite bool_decide_eq_true_2.
      * exists k. split; [by right|].
        rewrite bool_decide_eq_false_2; [done|]. intros ->. apply Hk0.
        apply list_elem_of_fmap. by exists (k, v).
    + intros (k & [[= -> ->]|Hin]%elem_of_cons & Hget); [by left|]. right.
      exists k. split; [done|].
      rewrite bool_decide_eq_false_2 in Hget; [done|]. intros ->. apply Hk0.
      apply list_elem_of_fmap. by exists (k, v).
Qed.

Lemma aggregate_snoc l d : aggregate (l ++ [d]) = add_device (aggregate l) d.
Proof. unfold aggregate. by rewrite fold_left_app. Qed.

(** Every entry is stored under the key of its record, the keys are
    distinct, and the entry of a key is the last record discovered for it. *)
Lemma aggregate_spec l :
  (forall k d, (k, d) ∈ aggregate l -> k = key_of d /\ d ∈ l) /\
  NoDup (map fst (aggregate l)) /\
  (forall k, k ∈ map fst (aggregate l) <-> k ∈ map key_of l) /\
  (forall k, dict_get k (aggregate l) = last (filter (fun d => key_of d = k) l)).
Proof.
  induction l as [|d l (IH1 & IH2 & IH3 & IH4)] using rev_ind.
  - split; [by intros k d ?%elem_of_nil|]. split; [apply NoDup_nil_2|]. done.
  - rewrite aggregate_snoc. unfold add_device.
    destruct (dict_set_keys (key_of d) d (aggregate l) IH2) as [Hnd Hkeys].
    split; [|split; [done|split]].
    + intros k d' [[= -> ->]|Hin]%dict_set_entries.
      * split; [done|]. apply elem_of_app. right. left.
      * destruct (IH1 _ _ Hin). split; [done|]. apply elem_of_app. by left.
    + intros k. rewrite Hkeys, IH3, map_app, elem_of_app. simpl.
      rewrite list_elem_of_singleton. tauto.
    + intros k. rewrite dict_get_set, filter_app, IH4.
      destruct (bool_decide_reflect (key_of d = k)) as [Hk|Hk].
      * rewrite filter_cons_True by done. rewrite filter_nil. by rewrite last_snoc.
      * rewrite filter_cons_False by done. rewrite filter_nil. by rewrite app_nil_r.
Qed.

Lemma key_str_inj k1 k2 : key_str k1 = key_str k2 -> k1 = k2.
Proof.
  destruct k1 as [i1 p1], k2 as [i2 p2]. unfold key_str. simpl. intros E.
  apply app_sep_inj in E as [-> E]; [|apply str_no_colon..].
  by apply str_inj in E as ->.
Qed.

Lemma key_of_target d : key_of d = key_str (target_key d).
Proof. reflexivity. Qed.

Lemma dict_get_elem {V} (k : str) (v : V) (d : dict V) :
  dict_get k d = Some v -> (k, v) ∈ d.
Proof.
  induction d as [|[k0 v0] d IH]; simpl; [done|].
  destruct (bool_decide_reflect (k0 = k)) as [->|].
  - intros [= ->]. left.
  - intros H. right. by apply IH.
Qed.

Lemma aggregate_keys l : map fst (aggregate l) = map key_of (values (aggregate l)).
Proof.
  destruct (aggregate_spec l) as (H & _). unfold values.
  induction (aggregate l) as [|[k d] a IH]; simpl; [done|].
  rewrite IH.
  - f_equal. apply (H k d). left.
  - intros k' d' Hin. apply H. by right.
Qed.

(** The report has one record per (address, port) key: the last one
    discovered for it. *)
Lemma aggregate_unique l :
  NoDup (map target_key (values (aggregate l))) /\
  (forall d, d ∈ values (aggregate l) <-> last_found (target_key d) l = Some d) /\
  length (values (aggregate l))
    = size (list_to_set (map target_key l) : gset (str * Z)).
Proof.
  destruct (aggregate_spec l) as (H1 & H2 & H3 & H4).
  assert (NoDup (map target_key (values (aggregate l)))) as Hnd.
  { apply (NoDup_fmap_1 key_str). rewrite aggregate_keys in H2.
    rewrite <- list_fmap_compose. by erewrite list_fmap_ext; [apply H2|]. }
  split; [done|]. split.
  - intros d. rewrite (dict_get_values _ _ H2). unfold last_found.
    erewrite (list_filter_iff (fun d' => target_key d' = target_key d)
                (fun d' => key_of d' = key_of d)).
    + rewrite <- H4. split.
      * intros (k & Hin & Hget). by destruct (H1 _ _ Hin) as [-> _].
      * intros Hget. exists (key_of d). split; [|done]. by apply dict_get_elem.
    + intros d'. split; [intros E; by rewrite !key_of_target, E|apply key_of_inj].
  - rewrite <- (length_map target_key), <- (size_list_to_set (C:=gset (str * Z))) by done.
    f_equal. apply set_eq. intros k. rewrite !elem_of_list_to_set, !list_elem_of_fmap.
    split.
    + intros (d & -> & Hd). apply (dict_get_values _ _ H2) in Hd as (k' & Hin & _).
      exists d. split; [done|]. by apply (H1 _ _ Hin).
    + intros (d & -> & Hd).
      assert (key_of d ∈ map fst (aggregate l)) as Hk.
      { apply H3, list_elem_of_fmap. by exists d. }
      apply list_elem_of_fmap in Hk as ([k' d'] & Ek & Hin). simpl in Ek. subst k'.
      destruct (H1 _ _ Hin) as [Ek _]. exists d'. split; [by apply key_of_inj|].
      unfold values. apply list_elem_of_fmap. by exists (key_of d, d').
Qed.

(** ** The scan loop *)

Lemma try_unit_engine total r st :
  is_scanning (engine (try_unit total r st).2) = is_scanning (engine st) /\
  callback (engine (try_unit total r st).2) = callback (engine st) /\
  scan_result (engine (try_unit total r st).2) = scan_result (engine st) /\
  devices_found (engine (try_unit total r st).2)
    = match r with
      | Ok (Some d) => add_device (devices_found (engine st)) d
      | _ => devices_found (engine st)
      end /\
  scanned st <= scanned (try_unit total r st).2.
Proof.
  unfold try_unit. destruct r as [[d|]|e]; simpl.
  - repeat split; lia.
  - destruct (_ =? 0); simpl; repeat split; lia.
  - repeat split; lia.
Qed.

Lemma observe_engine b st :
  devices_found (engine (observe b st)) = devices_found (engine st) /\
  callback (engine (observe b st)) = callback (engine st) /\
  scan_result (engine (observe b st)) = scan_result (engine st) /\
  scanned (observe b st) = scanned st /\
  is_scanning (engine (observe b st)) = is_scanning (engine st) && negb b.
Proof.
  destruct b; simpl; by rewrite ?andb_false_r, ?andb_true_r.
Qed.

Lemma loop_body_break total ev st :
  is_scanning (engine st) && negb (stop_called ev) = false ->
  loop_body total ev st = (false, observe (stop_called ev) st).
Proof.
  intros H. unfold loop_body.
  destruct (observe_engine (stop_called ev) st) as (_ & _ & _ & _ & ->). by rewrite H.
Qed.

Lemma loop_body_continue total ev st :
  is_scanning (engine st) = true -> stop_called ev = false ->
  exists st', loop_body total ev st = (true, st') /\
    is_scanning (engine st') = true /\
    callback (engine st') = callback (engine st) /\
    scan_result (engine st') = scan_result (engine st) /\
    devices_found (engine st')
      = match outcome ev with
        | Ok (Some d) => add_device (devices_found (engine st)) d
        | _ => devices_found (engine st)
        end /\
    scanned st + 1 <= scanned st'.
Proof.
  intros Hs Hc. unfold loop_body. rewrite Hc. cbn [observe]. rewrite Hs. cbn [negb].
  pose proof (try_unit_engine total (outcome ev) st) as (H1 & H2 & H3 & H4 & H5).
  destruct (try_unit total (outcome ev) st) as [r st'] eqn:E. simpl in *.
  assert (scanned st + 1 <= scanned st' \/ exists e, r = Raise e) as Hsc.
  { unfold try_unit in E. destruct (outcome ev) as [[d|]|e].
    - left. injection E as _ <-. simpl. lia.
    - destruct (_ =? 0); injection E as _ <-; left; simpl; lia.
    - right. injection E as <- _. by exists e. }
  destruct r as [u|e]; eexists; (split; [done|]); simpl;
    rewrite ?H1, ?H2, ?H3, ?H4; repeat split; try done.
  - destruct Hsc as [?|[? ?]]; [done|congruence].
  - lia.
Qed.

(** While no stop is observed the loop stores every record it receives. *)
Lemma scan_loop_spec total evs : forall st,
  is_scanning (engine st) = true ->
  devices_found (engine (scan_loop total evs st))
    = fold_left add_device (discoveries evs) (devices_found (engine st)) /\
  callback (engine (scan_loop total evs st)) = callback (engine st) /\
  scan_result (engine (scan_loop total evs st)) = scan_result (engine st) /\
  scanned st <= scanned (scan_loop total evs st).
Proof.
  induction evs as [|ev evs IH]; intros st Hs; cbn [scan_loop discoveries].
  - repeat split; lia.
  - destruct (stop_called ev) eqn:Hc.
    + rewrite loop_body_break by (by rewrite Hs, Hc).
      destruct (observe_engine (stop_called ev) st) as (-> & -> & -> & -> & _).
      repeat split; lia.
    + destruct (loop_body_continue total ev st Hs Hc)
        as (st' & -> & Hs' & Hcb & Hsr & Hdf & Hsc).
      destruct (IH st' Hs') as (-> & -> & -> & Hsc'). rewrite Hdf, Hcb, Hsr.
      split; [|repeat split; lia].
      by destruct (outcome ev) as [[d|]|e].
Qed.

Lemma loop_body_callback total ev st :
  callback (engine (loop_body total ev st).2) = callback (engine st).
Proof.
  unfold loop_body.
  destruct (observe_engine (stop_called ev) st) as (_ & Hc & _).
  destruct (negb _); [done|].
  pose proof (try_unit_engine total (outcome ev) (observe (stop_called ev) st))
    as (_ & H & _).
  destruct (try_unit _ _ _) as [[u|e] st']; simpl in *; congruence.
Qed.

Lemma scan_loop_callback total evs : forall st,
  callback (engine (scan_loop total evs st)) = callback (engine st).
Proof.
  induction evs as [|ev evs IH]; intros st; cbn [scan_loop]; [done|].
  pose proof (loop_body_callback total ev st) as H.
  destruct (loop_body total ev st) as [[] st']; simpl in H; [|done].
  by rewrite IH.
Qed.

(** ** Settings *)

Lemma validate_cases s :
  validate s = Ok (true, MsgOK) \/ exists m, validate s = Ok (false, m).
Proof.
  unfold validate. rewrite !validate_ip_spec. cbn [bind].
  repeat match goal with
  | |- context [if ?b then _ else _] => destruct b; [by eauto|]
  end.
  by left.
Qed.

Lemma validate_true s m :
  validate s = Ok (true, m) ->
  validate_ip (ip_start s) = Ok true /\ validate_ip (ip_end s) = Ok true /\
  validate_port (port_start s) = true /\ validate_port (port_end s) = true /\
  port_start s <= port_end s /\ validate_threads (threads s) = true /\
  timeout_ok (timeout s) = true.
Proof.
  unfold validate. rewrite !validate_ip_spec. cbn [bind].
  destruct (accepts (ip_start s)); [|done]. destruct (accepts (ip_end s)); [|done].
  destruct (validate_port (port_start s)); [|done].
  destruct (validate_port (port_end s)); [|done].
  destruct (Z.ltb_spec (port_end s) (port_start s)); [done|].
  destruct (validate_threads (threads s)); [|done].
  destruct (timeout_ok (timeout s)); [|done]. done.
Qed.

Lemma validate_threads_false s :
  validate_threads (threads s) = false -> exists m, validate s = Ok (false, m).
Proof.
  intros H. destruct (validate_cases s) as [E|E]; [|done].
  apply validate_true in E as (_ & _ & _ & _ & _ & E & _). congruence.
Qed.

(** ** [scan_async] *)

Lemma scan_body_spec self cfg w r self' tr pool rep :
  scan_body self cfg w = (r, self', tr, pool, rep) ->
  (pool = None \/ pool = Some (threads cfg)) /\
  callback self' = callback self /\
  match rep with
  | Some res =>
      is_scanning self = true ->
      scan_result self' = res /\
      devices res
        = values (fold_left add_device (discoveries (events w)) (devices_found self)) /\
      total_found res = len (devices res) /\
      settings res = cfg
  | None => self' = self
  end.
Proof.
  unfold scan_body.
  destruct (parse_ports _ _ _) as [ports|e]; [|by intros [= <- <- <- <- <-]; auto].
  destruct (is_empty _ || is_empty _); [by intros [= <- <- <- <- <-]; auto|].
  cbn [notify]. destruct (match callback self with Some _ => _ | None => _ end);
    [|by intros [= <- <- <- <- <-]; auto].
  destruct (threads cfg <=? 0); [by intros [= <- <- <- <- <-]; auto|].
  destruct (submit_error w); [by intros [= <- <- <- <- <-]; auto|].
  intros [= <- <- <- <- <-]. split; [by right|]. cbn.
  split; [apply scan_loop_callback|].
  intros Hs.
  match goal with |- context [scan_loop ?t ?e ?s] =>
    destruct (scan_loop_spec t e s Hs) as (-> & _ & _ & _) end.
  unfold values, len. by rewrite length_map.
Qed.

(** A rejected request: one notification, and nothing else happens. *)
Lemma scan_async_rejects self settings w error_msg :
  validate settings = Ok (false, error_msg) ->
  scanner (scan_async self settings w) = self /\
  notified (scan_async self settings w)
    = [mkNotification (TInvalid error_msg) None None] /\
  settings_after (scan_async self settings w) = settings /\
  capped (scan_async self settings w) = false /\
  pool_size (scan_async self settings w) = None /\
  report (scan_async self settings w) = None.
Proof.
  intros H. unfold scan_async. rewrite H. cbn. done.
Qed.

(** C6: with settings that fail validation [scan_async] makes one call of
    [_notify], with the error, and returns: the scanner (flag, aggregation
    map, stored result) and the settings are as before, no pool is made and
    no report is stored. *)
Theorem scan_async_invalid self settings w error_msg :
  validate settings = Ok (false, error_msg) ->
  scanner (scan_async self settings w) = self /\
  notified (scan_async self settings w)
    = [mkNotification (TInvalid error_msg) None None] /\
  settings_after (scan_async self settings w) = settings /\
  capped (scan_async self settings w) = false /\
  pool_size (scan_async self settings w) = None /\
  report (scan_async self settings w) = None.
Proof.
  apply scan_async_rejects.
Qed.

Lemma scan_async_invalid_witness :
  scanner (scan_async (new_scanner []) (set_threads 0 default_settings) quiet)
    = new_scanner [] /\
  notified (scan_async (new_scanner []) (set_threads 0 default_settings) quiet)
    = [mkNotification (TInvalid (InvalidThreads 0)) None None].
Proof.
  destruct (scan_async_invalid (new_scanner []) (set_threads 0 default_settings) quiet
              (InvalidThreads 0) ltac:(vm_compute; reflexivity)) as (H1 & H2 & _).
  split; [exact H1|exact H2].
Defined.

(** C10: a call of [scan_async] on a scanner whose flag is false leaves the
    flag false, whatever the settings and whatever happens during the call. *)
Theorem scan_async_resets_flag self settings w :
  is_scanning self = false ->
  is_scanning (scanner (scan_async self settings w)) = false.
Proof.
  intros H. unfold scan_async.
  destruct (validate settings) as [[[] m]|e]; cbn; [|done..].
  by destruct (scan_body _ _ _) as [[[[r s'] tr] pool] rep], r.
Qed.

Lemma scan_async_resets_flag_witness :
  is_scanning (scanner (scan_async (new_scanner []) default_settings two_hits)) = false.
Proof.
  apply scan_async_resets_flag. reflexivity.
Defined.

(** Once validation has passed, the flag is false at the end even if it
    was true at the start. *)
Lemma scan_async_valid_resets_flag self settings w m :
  validate settings = Ok (true, m) ->
  is_scanning (scanner (scan_async self settings w)) = false.
Proof.
  intros H. unfold scan_async. rewrite H.
  by destruct (scan_body _ _ _) as [[[[r s'] tr] pool] rep], r.
Qed.

Lemma scan_async_report self cfg w res :
  report (scan_async self cfg w) = Some res ->
  scan_result (scanner (scan_async self cfg w)) = res /\
  devices res = values (aggregate (discoveries (events w))) /\
  total_found res = len (devices res).
Proof.
  unfold scan_async.
  destruct (validate cfg) as [[[] m]|e]; [|by destruct (notify _ _ _)|done].
  match goal with |- context [scan_body ?s ?c ?w] =>
    pose proof (scan_body_spec s c w) as Hb;
    destruct (scan_body s c w) as [[[[r s'] tr] pool] rep] end.
  specialize (Hb _ _ _ _ _ eq_refl) as (_ & _ & Hb).
  assert (forall (x : exc unit * list notification),
            report (let (r0, tr0) := x in
                    mkRun (to_raised r0) (set_is_scanning false s') tr0
                      (if 200 <? threads cfg then set_threads 200 cfg else cfg)
                      (200 <? threads cfg) pool rep) = rep) as Hrep
    by (by intros []).
  assert (forall (x : exc unit * list notification),
            scan_result (scanner (let (r0, tr0) := x in
                    mkRun (to_raised r0) (set_is_scanning false s') tr0
                      (if 200 <? threads cfg then set_threads 200 cfg else cfg)
                      (200 <? threads cfg) pool rep)) = scan_result s') as Hsr
    by (by intros []).
  rewrite Hrep, Hsr. intros ->.
  destruct (Hb eq_refl) as (? & ? & ? & _). done.
Qed.

(** C5: the report that a run stores has at most one record per
    (address, port) key; the record of a key is the last one discovered for
    it; and [total_found] is the number of records, which is the number of
    distinct keys discovered. *)
Theorem report_one_record_per_key self cfg w res :
  report (scan_async self cfg w) = Some res ->
  scan_result (scanner (scan_async self cfg w)) = res /\
  NoDup (map target_key (devices res)) /\
  (forall d, d ∈ devices res <->
             last_found (target_key d) (discoveries (events w)) = Some d) /\
  total_found res = len (devices res) /\
  len (devices res)
    = Z.of_nat (size (list_to_set (map target_key (discoveries (events w)))
                        : gset (str * Z))).
Proof.
  intros H. apply scan_async_report in H as (H1 & H2 & H3).
  destruct (aggregate_unique (discoveries (events w))) as (U1 & U2 & U3).
  rewrite H2. split; [done|]. split; [done|]. split; [done|].
  split; [by rewrite H3, H2|]. unfold len. by rewrite U3.
Qed.

Lemma report_one_record_per_key_witness :
  exists res,
    report (scan_async (new_scanner []) default_settings two_hits) = Some res /\
    devices res = [hit (py "ADB")] /\ total_found res = 1.
Proof.
  destruct (report (scan_async (new_scanner []) default_settings two_hits))
    as [res|] eqn:E; [|vm_compute in E; discriminate].
  exists res. split; [reflexivity|].
  destruct (report_one_record_per_key _ _ _ _ E) as (_ & _ & _ & H4 & _).
  vm_compute in E. injection E as <-. split; [reflexivity|exact H4].
Defined.

(** C3, as the specification states it, fails: 201 threads are rejected by
    validation, not reduced to 200. *)
Lemma clamps_above_ceiling_fails : ~ clamps_above_ceiling.
Proof.
  intros H.
  destruct (H (new_scanner []) (set_threads 201 default_settings) quiet
              ltac:(reflexivity) ltac:(vm_compute; reflexivity)) as [H1 _].
  vm_compute in H1. discriminate.
Qed.

(** C3 (amended): a thread count outside 1..200 -- zero, negative or above
    200 -- is rejected by validation: the error is notified, nothing is
    changed and no pool is made.  The cap in [scan_async] never applies, and
    a pool, when one is made, has the requested size, which is in 1..200. *)
Theorem threads_bounded self cfg w :
  (validate_threads (threads cfg) = false ->
   exists m, validate cfg = Ok (false, m) /\
     notified (scan_async self cfg w) = [mkNotification (TInvalid m) None None] /\
     scanner (scan_async self cfg w) = self /\
     pool_size (scan_async self cfg w) = None) /\
  capped (scan_async self cfg w) = false /\
  settings_after (scan_async self cfg w) = cfg /\
  (forall n, pool_size (scan_async self cfg w) = Some n ->
             n = threads cfg /\ 1 <= n <= 200).
Proof.
  split.
  - intros [m Hm]%validate_threads_false. exists m. split; [done|].
    destruct (scan_async_rejects self cfg w m Hm) as (? & ? & _ & _ & ? & _). done.
  - destruct (validate_cases cfg) as [Hv|[m Hm]].
    + pose proof (validate_true _ _ Hv) as (_ & _ & _ & _ & _ & Ht & _).
      unfold validate_threads in Ht. apply andb_true_iff in Ht as [T1 T2].
      apply Z.leb_le in T1, T2.
      unfold scan_async. rewrite Hv.
      replace (200 <? threads cfg) with false by (symmetry; apply Z.ltb_ge; lia).
      match goal with |- context [scan_body ?s ?c ?w] =>
        pose proof (scan_body_spec s c w) as Hb;
        destruct (scan_body s c w) as [[[[r s'] tr] pool] rep] end.
      specialize (Hb _ _ _ _ _ eq_refl) as (Hp & _).
      destruct r as [u|e]; cbn; (split; [done|split; [done|]]);
        intros n ->; destruct Hp as [?|[= ->]]; try done; split; (done || lia).
    + destruct (scan_async_rejects self cfg w m Hm) as (_ & _ & -> & -> & -> & _).
      done.
Qed.

Lemma threads_bounded_witness :
  pool_size (scan_async (new_scanner []) (set_threads 201 default_settings) quiet) = None /\
  pool_size (scan_async (new_scanner []) (set_threads 0 default_settings) quiet) = None /\
  pool_size (scan_async (new_scanner []) (set_threads (-3) default_settings) quiet) = None.
Proof.
  split; [|split].
  - destruct (threads_bounded (new_scanner []) (set_threads 201 default_settings) quiet)
      as [H _].
    destruct (H ltac:(reflexivity)) as (m & _ & _ & _ & E). exact E.
  - destruct (threads_bounded (new_scanner []) (set_threads 0 default_settings) quiet)
      as [H _].
    destruct (H ltac:(reflexivity)) as (m & _ & _ & _ & E). exact E.
  - destruct (threads_bounded (new_scanner []) (set_threads (-3) default_settings) quiet)
      as [H _].
    destruct (H ltac:(reflexivity)) as (m & _ & _ & _ & E). exact E.
Defined.

(** ** CSV export *)

(** C9 (the code on every report): [to_dict] has the keys [manufacturer],
    [model] and [version], which are not field names, so the first
    [writerow] raises; the exception is caught and logged.  The file has the
    header row and nothing else, also when the report has records. *)
Theorem export_csv_header_only self :
  export_csv self = ([fieldnames], negb (is_empty (devices (scan_result self)))).
Proof.
  unfold export_csv. destruct (devices (scan_result self)) as [|d rest]; [done|].
  cbn [write_rows]. unfold dict_to_list, to_dict.
  replace (forallb _ _) with false; [done|]. vm_compute. reflexivity.
Qed.

Lemma export_csv_one_record :
  export_csv (set_scan_result
                (mkScanResult [hit (py "ADB")] 1 1 0%float default_settings [])
                (new_scanner []))
  = ([fieldnames], true) /\
  row_of (hit (py "ADB"))
  = [py "192.168.1.7"; py "5555"; py "ADB"; py "online"; []; []].
Proof. split; vm_compute; reflexivity. Qed.

(** ** Stopping *)

Lemma pool_step_frozen mw total s l s' :
  Pool.step mw total s l s' ->
  Pool.looping s = false ->
  Pool.looping s' = false /\
  scanned (Pool.loop s') = scanned (Pool.loop s) /\
  devices_found (engine (Pool.loop s')) = devices_found (engine (Pool.loop s)).
Proof.
  intros Hstep Hl. destruct Hstep; simpl; try done; congruence.
Qed.

Lemma pool_steps_frozen mw total s ls s' :
  Pool.steps mw total s ls s' ->
  Pool.looping s = false ->
  Pool.looping s' = false /\
  scanned (Pool.loop s') = scanned (Pool.loop s) /\
  devices_found (engine (Pool.loop s')) = devices_found (engine (Pool.loop s)).
Proof.
  induction 1 as [s|s l s1 ls s2 Hstep Hsteps IH]; intros Hl; [done|].
  destruct (pool_step_frozen _ _ _ _ _ Hstep Hl) as (H1 & H2 & H3).
  destruct (IH H1) as (? & ? & ?). split; [done|]. split; congruence.
Qed.

(** The future that the loop gets after a [stop_scan] is not counted: the
    loop ends there. *)
Lemma pool_yield_after_stop mw total s r s' :
  Pool.step mw total s (Pool.Yield r) s' ->
  is_scanning (engine (Pool.loop s)) = false ->
  Pool.looping s' = false /\ Pool.loop s' = Pool.loop s.
Proof.
  inversion 1 as [| |s0 r0 f1 f2 c st' Hl Hf Hb| |]; subst. intros Hs.
  rewrite loop_body_break in Hb by (by rewrite Hs). cbn in Hb.
  injection Hb as <- <-. done.
Qed.

Lemma stop_scan_spec self tr :
  stop_scan self tr
  = (match callback self with
     | Some cb => cb (mkNotification TStopped None None)
     | None => Ok tt
     end, set_is_scanning false self, tr ++ [mkNotification TStopped None None]).
Proof. reflexivity. Qed.

Lemma set_is_scanning_idle self :
  is_scanning self = false -> set_is_scanning false self = self.
Proof. destruct self. simpl. by intros ->. Qed.

(** C8, as the specification states it, fails: with one worker and two
    units, the second unit is still queued when the loop observes the stop,
    and the worker starts it afterwards. *)
Lemma no_start_after_observation_fails : ~ no_start_after_observation.
Proof.
  intros H.
  set (s0 := Pool.init [unit1; unit2] busy).
  set (s1 := Pool.mkState [unit2] [unit1] [] busy true).
  set (s2 := Pool.mkState [unit2] [unit1] [] (observe true busy) true).
  set (s3 := Pool.mkState [unit2] [] [Ok None] (observe true busy) true).
  set (s4 := Pool.mkState [unit2] [] [] (observe true busy) false).
  set (s5 := Pool.mkState [] [unit2] [] (observe true busy) false).
  assert (Pool.steps 1 2 s0
            [Pool.Start unit1; Pool.Stop; Pool.Finish unit1 (Ok None);
             Pool.Yield (Ok None)] s4) as Hrun.
  { apply (Pool.steps_cons 1 2 s0 _ s1).
    { exact (Pool.step_start 1 2 s0 unit1 [unit2] eq_refl eq_refl). }
    apply (Pool.steps_cons 1 2 s1 _ s2); [exact (Pool.step_stop 1 2 s1)|].
    apply (Pool.steps_cons 1 2 s2 _ s3).
    { refine (Pool.step_finish 1 2 s2 unit1 (Ok None) [] [] eq_refl _).
      intros d [=]. }
    apply (Pool.steps_cons 1 2 s3 _ s4); [|apply Pool.steps_nil].
    exact (Pool.step_yield 1 2 s3 (Ok None) [] [] false (observe true busy)
             eq_refl eq_refl eq_refl). }
  apply (H 1 2 _ _ _ s4 (Pool.Start unit2) s5 Hrun eq_refl) with (u := unit2);
    [|reflexivity].
  exact (Pool.step_start 1 2 s4 unit2 [] eq_refl eq_refl).
Qed.

(** The loop of [scan_async] over an event list is an execution of the
    pool: a [stop_scan] before a future is a [Stop] step before its [Yield]. *)
Lemma pool_simulates_loop mw total evs : forall st q run,
  exists ls s',
    Pool.steps mw total (Pool.mkState q run (map outcome evs) st true) ls s' /\
    Pool.loop s' = scan_loop total evs st.
Proof.
  induction evs as [|ev evs IH]; intros st q run.
  - exists [], (Pool.mkState q run [] st true). split; [apply Pool.steps_nil|done].
  - cbn [scan_loop map].
    assert (loop_body total ev st
            = loop_body total (mkEvent false (outcome ev)) (observe (stop_called ev) st))
      as Hb by (destruct ev as [[] r]; reflexivity).
    destruct (loop_body total ev st) as [continue st'] eqn:E.
    set (s1 := Pool.mkState q run (outcome ev :: map outcome evs)
                 (observe (stop_called ev) st) true).
    assert (exists ls, Pool.steps mw total
              (Pool.mkState q run (outcome ev :: map outcome evs) st true) ls s1)
      as [ls1 H1].
    { destruct (stop_called ev) eqn:Hc.
      - exists [Pool.Stop]. eapply Pool.steps_cons; [|apply Pool.steps_nil].
        exact (Pool.step_stop mw total
                 (Pool.mkState q run (outcome ev :: map outcome evs) st true)).
      - exists []. apply Pool.steps_nil. }
    assert (Pool.step mw total s1 (Pool.Yield (outcome ev))
              (Pool.mkState q run (map outcome evs) st' continue)) as H2.
    { exact (Pool.step_yield mw total s1 (outcome ev) [] (map outcome evs) continue st'
               eq_refl eq_refl (eq_sym Hb)). }
    assert (forall a b c l1 l2,
              Pool.steps mw total a l1 b -> Pool.steps mw total b l2 c ->
              Pool.steps mw total a (l1 ++ l2) c) as Happ.
    { intros a b c l1 l2 Hab. induction Hab; [done|]. intros Hbc.
      simpl. eapply Pool.steps_cons; eauto. }
    destruct continue.
    + destruct (IH st' q run) as (ls & s' & Hs & Hl).
      exists (ls1 ++ Pool.Yield (outcome ev) :: ls), s'. split; [|done].
      eapply Happ; [exact H1|]. eapply Pool.steps_cons; [exact H2|exact Hs].
    + eexists (ls1 ++ [Pool.Yield (outcome ev)]), _. split.
      * eapply Happ; [exact H1|]. eapply Pool.steps_cons; [exact H2|apply Pool.steps_nil].
      * done.
Qed.

(** A unit leaves the queue only when a worker starts it: in a run that
    ends with an empty queue, as [shutdown(wait=True)] requires, every unit
    that was queued has begun its probes. *)
Lemma pool_queue_runs mw total s ls s' :
  Pool.steps mw total s ls s' ->
  Pool.queue s' = [] ->
  forall u, u ∈ Pool.queue s -> Pool.Start u ∈ ls.
Proof.
  induction 1 as [s|s l s1 ls s2 Hstep Hsteps IH]; intros Hq u Hu.
  - rewrite Hq in Hu. by apply elem_of_nil in Hu.
  - destruct Hstep as [s u0 q0 Hq0 Hr| | | |s Hl Hq0 Hr Hf]; simpl in *.
    + rewrite Hq0 in Hu. apply elem_of_cons in Hu as [->|Hu]; [left|].
      right. by apply IH.
    + right. by apply IH.
    + right. by apply IH.
    + right. by apply IH.
    + rewrite Hq0 in Hu. by apply elem_of_nil in Hu.
Qed.

(** C8 (amended): once the loop has left, the scanned count and the
    aggregation map do not change any more, whatever the pool does; the
    future that the loop gets after a [stop_scan] is not counted and ends
    the loop; a queued unit can begin its probes whenever a worker is free,
    stopped or not, and has done so in every run that empties the queue;
    and [stop_scan] clears the flag, notifies [STOPPED], is idempotent on
    the scanner and leaves an idle scanner as it is. *)
Theorem stop_freezes_count :
  (forall mw total s ls s',
     Pool.steps mw total s ls s' -> Pool.looping s = false ->
     Pool.looping s' = false /\
     scanned (Pool.loop s') = scanned (Pool.loop s) /\
     devices_found (engine (Pool.loop s')) = devices_found (engine (Pool.loop s))) /\
  (forall mw total s r s',
     Pool.step mw total s (Pool.Yield r) s' ->
     is_scanning (engine (Pool.loop s)) = false ->
     Pool.looping s' = false /\ Pool.loop s' = Pool.loop s) /\
  (forall mw total s u q,
     Pool.queue s = u :: q -> len (Pool.running s) < mw ->
     exists s', Pool.step mw total s (Pool.Start u) s') /\
  (forall mw total s ls s',
     Pool.steps mw total s ls s' -> Pool.queue s' = [] ->
     forall u, u ∈ Pool.queue s -> Pool.Start u ∈ ls) /\
  (forall self tr,
     (stop_scan self tr).1.2 = set_is_scanning false self /\
     (stop_scan self tr).2 = tr ++ [mkNotification TStopped None None] /\
     (stop_scan (stop_scan self tr).1.2 (stop_scan self tr).2).1.2
       = (stop_scan self tr).1.2 /\
     (is_scanning self = false -> (stop_scan self tr).1.2 = self)).
Proof.
  split; [exact pool_steps_frozen|]. split; [exact pool_yield_after_stop|].
  split; [|split].
  - intros mw total s u q Hq Hr. eexists. by apply (Pool.step_start mw total s u q).
  - exact pool_queue_runs.
  - intros self tr. rewrite !stop_scan_spec. cbn. split; [done|]. split; [done|].
    split; [done|]. apply set_is_scanning_idle.
Qed.

Lemma stop_freezes_count_witness :
  scanned (Pool.loop (Pool.mkState [] [unit2] [] (observe true busy) false))
  = scanned (Pool.loop (Pool.mkState [unit2] [] [] (observe true busy) false)) /\
  (stop_scan (new_scanner []) []).1.2 = new_scanner [].
Proof.
  destruct stop_freezes_count as (Hfrozen & _ & _ & _ & Hstop). split.
  - refine (proj1 (proj2 (Hfrozen 1 2
              (Pool.mkState [unit2] [] [] (observe true busy) false)
              [Pool.Start unit2]
              (Pool.mkState [] [unit2] [] (observe true busy) false) _ eq_refl))).
    eapply Pool.steps_cons; [|apply Pool.steps_nil].
    exact (Pool.step_start 1 2
             (Pool.mkState [unit2] [] [] (observe true busy) false) unit2 []
             eq_refl eq_refl).
  - destruct (Hstop (new_scanner []) []) as (_ & _ & _ & Hidle).
    apply Hidle. reflexivity.
Defined.

(** ** The probe layer *)

Ltac probe_cases :=
  repeat match goal with
  | |- context [if ?b then _ else _] => destruct b eqn:?
  | |- context [match ?x with Ok _ => _ | Raise _ => _ end] => destruct x eqn:?
  | |- context [let (_, _) := ?x in _] => destruct x eqn:?
  | H : context [if ?b then _ else _] |- _ => destruct b eqn:?
  | H : context [match ?x with Ok _ => _ | Raise _ => _ end] |- _ => destruct x eqn:?
  | H : context [let (_, _) := ?x in _] |- _ => destruct x eqn:?
  end.

Lemma identify_device_record net addr p h d h' :
  _identify_device net addr p h = (Some d, h') ->
  ip d = addr /\ port d = p /\ status d = py "online" /\
  (device_type d = py "ADB" /\ (p = 5037 \/ p = 5555) \/
   device_type d = py "SSH" /\ p = 22 \/
   device_type d = py "Telnet" /\ p = 23 \/
   device_type d = py "Unknown").
Proof.
  unfold _identify_device, bind_p, ret_p, new_device, adb_check, _check_port.
  intros H. probe_cases; simplify_eq/=; repeat split; try lia; auto.
  - left. split; [done|].
    match goal with H : _ || _ = true |- _ \/ _ =>
      apply orb_true_iff in H as [?%Z.eqb_eq|?%Z.eqb_eq]; auto end.
  - right. left. split; [done|]. by apply Z.eqb_eq.
  - right. right. left. split; [done|]. by apply Z.eqb_eq.
Qed.

Lemma scan_single_target_shape net addr p cfg h d h' :
  _scan_single_target net addr p cfg h = (Some d, h') ->
  ip d = addr /\ port d = p /\ status d = py "online" /\
  (device_type d = py "ADB" /\ (p = 5037 \/ p = 5555) \/
   device_type d = py "SSH" /\ p = 22 \/
   device_type d = py "Telnet" /\ p = 23 \/
   device_type d = py "Unknown").
Proof.
  unfold _scan_single_target, bind_p, ret_p. intros H.
  destruct (skip_ping cfg); cbn [negb] in H.
  - destruct (_check_port net addr p (timeout cfg) h) as [[] h2]; cbn [negb] in H;
      [by apply identify_device_record in H|done].
  - destruct (_ping_host net addr h) as [[] h1]; cbn [negb] in H; [|done].
    destruct (_check_port net addr p (timeout cfg) h1) as [[] h2]; cbn [negb] in H;
      [by apply identify_device_record in H|done].
Qed.

(** X1: a record that [_scan_single_target] returns carries the address and
    the port of its unit and the status "online"; it is classified ADB only
    on port 5037 or 5555, SSH only on port 22 and Telnet only on port 23. *)
Theorem scan_single_target_record net addr p cfg h d h' :
  _scan_single_target net addr p cfg h = (Some d, h') ->
  ip d = addr /\ port d = p /\ status d = py "online" /\
  (device_type d = py "ADB" /\ (p = 5037 \/ p = 5555) \/
   device_type d = py "SSH" /\ p = 22 \/
   device_type d = py "Telnet" /\ p = 23 \/
   device_type d = py "Unknown").
Proof. apply scan_single_target_shape. Qed.

Lemma scan_single_target_record_witness :
  exists d h',
    _scan_single_target open_network (py "10.0.0.5") 22 default_settings [] = (Some d, h') /\
    device_type d = py "SSH" /\ ip d = py "10.0.0.5" /\ port d = 22.
Proof.
  destruct (_scan_single_target open_network (py "10.0.0.5") 22 default_settings [])
    as [[d|] h'] eqn:E; [|vm_compute in E; discriminate].
  exists d, h'. split; [reflexivity|].
  destruct (scan_single_target_record _ _ _ _ _ _ _ E) as (H1 & H2 & _ & _).
  vm_compute in E. injection E as <- _. split; [reflexivity|]. split; [exact H1|exact H2].
Defined.

(** A unit is in the result of its worker, as [Pool.result_of] requires. *)
Lemma scan_single_target_result_of net addr p cfg h :
  Pool.result_of (addr, p) (Ok (_scan_single_target net addr p cfg h).1).
Proof.
  intros d [= E]. destruct (_scan_single_target net addr p cfg h) as [r h'] eqn:R.
  simpl in E. subst r. by apply scan_single_target_shape in R as (-> & -> & _).
Qed.

(** X2: the probes of a unit short-circuit.  When the ping is not skipped
    and fails (non-zero status or an exception), the unit ends after that
    one probe with no record; when the connect with the configured timeout
    fails, the unit ends there with no record and no identification probe. *)
Theorem scan_single_target_short_circuit net addr p cfg h :
  (skip_ping cfg = false ->
   ping_run net (length h) addr <> Ok 0 ->
   _scan_single_target net addr p cfg h = (None, h ++ [Ping addr])) /\
  (skip_ping cfg = true ->
   connect_ex net (length h) addr p (timeout cfg) <> Ok 0 ->
   _scan_single_target net addr p cfg h
     = (None, h ++ [Connect addr p (timeout cfg)])) /\
  (skip_ping cfg = false ->
   ping_run net (length h) addr = Ok 0 ->
   connect_ex net (S (length h)) addr p (timeout cfg) <> Ok 0 ->
   _scan_single_target net addr p cfg h
     = (None, h ++ [Ping addr; Connect addr p (timeout cfg)])).
Proof.
  unfold _scan_single_target, bind_p, ret_p, _ping_host, _check_port.
  split; [|split].
  - intros -> Hp. cbn. destruct (ping_run net (length h) addr) as [rc|e]; [|done].
    destruct (Z.eqb_spec rc 0) as [->|]; done.
  - intros -> Hc. cbn.
    destruct (connect_ex net (length h) addr p (timeout cfg)) as [r|e]; [|done].
    destruct (Z.eqb_spec r 0) as [->|]; done.
  - intros -> Hp Hc. cbn. rewrite Hp. cbn. rewrite length_app, Nat.add_1_r.
    destruct (connect_ex net (S (length h)) addr p (timeout cfg)) as [r|e];
      [|by rewrite <- app_assoc].
    destruct (Z.eqb_spec r 0) as [->|]; [done|by rewrite <- app_assoc].
Qed.

Lemma scan_single_target_short_circuit_witness :
  _scan_single_target dead_network (py "10.0.0.5") 22 default_settings []
  = (None, [Ping (py "10.0.0.5")]).
Proof.
  destruct (scan_single_target_short_circuit dead_network (py "10.0.0.5") 22
              default_settings []) as (H & _).
  apply H; [reflexivity|discriminate].
Defined.

(** X3: a unit makes at most four probes, all of them of its own address
    and port: a ping only when it is not skipped, connects with the
    configured timeout or with 0.5 s, and [adb connect] only on port 5037 or
    5555. *)
Theorem scan_single_target_probes net addr p cfg h :
  exists ps,
    (_scan_single_target net addr p cfg h).2 = h ++ ps /\
    (length ps <= 4)%nat /\
    Forall (probe_of addr p cfg) ps.
Proof.
  unfold _scan_single_target, _identify_device, bind_p, ret_p, new_device,
    adb_check, _ping_host, _check_port.
  destruct (skip_ping cfg) eqn:Hs; cbn [negb];
  repeat match goal with
  | |- context [if ?b then _ else _] => destruct b eqn:?
  | |- context [match ?x with Ok _ => _ | Raise _ => _ end] => destruct x eqn:?
  | |- context [let (_, _) := ?x in _] => destruct x eqn:?
  end; cbn [snd negb]; rewrite <- ?app_assoc;
  (eexists; split; [try reflexivity; by rewrite app_nil_r|]);
  (split; [cbn; lia|]);
  repeat (apply Forall_cons; split; [|]); try apply Forall_nil;
  cbn; repeat split; auto;
  try match goal with H : _ || _ = true |- _ \/ _ =>
      apply orb_true_iff in H as [?%Z.eqb_eq|?%Z.eqb_eq]; auto end.
Qed.

(** X4: on a network where the port accepts every connection (and the host
    answers the ping, unless it is skipped) the unit always yields a record:
    ADB on port 5037 or 5555 when [adb connect] reports a connection, else
    SSH on port 22, Telnet on port 23 and Unknown otherwise -- also on an
    ADB port where [adb] fails or is missing. *)
Theorem open_port_is_reported net addr p cfg h a :
  (forall n t, connect_ex net n addr p t = Ok 0) ->
  (forall n, adb_run net n addr p = a) ->
  (skip_ping cfg = false -> ping_run net (length h) addr = Ok 0) ->
  exists d h',
    _scan_single_target net addr p cfg h = (Some d, h') /\
    device_type d = kind_of p (adb_connected a).
Proof.
  intros Hc Ha Hp.
  unfold _scan_single_target, _identify_device, bind_p, ret_p, new_device,
    adb_check, _ping_host, _check_port, kind_of, adb_connected.
  destruct (skip_ping cfg) eqn:Hs; cbn [negb];
    rewrite ?Hp by done; rewrite ?Hc, ?Ha; cbn [Z.eqb negb];
    rewrite ?Hc, ?Ha;
    destruct ((p =? 5037) || (p =? 5555)) eqn:Hadb; cbn [andb];
    rewrite ?Hc, ?Ha;
    destruct a as [[stdout rc]|e]; cbn [andb];
    repeat match goal with
    | |- context [if ?b then _ else _] => destruct b eqn:?
    end;
    repeat match goal with
    | H : context [connect_ex _ _ _ _ _] |- _ => rewrite Hc in H
    | H : context [adb_run _ _ _ _] |- _ => rewrite Ha in H
    end; try congruence;
    repeat match goal with
    | H : (_ =? _) = true |- _ => apply Z.eqb_eq in H
    | H : (_ =? _) = false |- _ => apply Z.eqb_neq in H
    | H : (_ =? _) || (_ =? _) = true |- _ => apply orb_true_iff in H as [H|H]
    | H : (_ =? _) || (_ =? _) = false |- _ => apply orb_false_iff in H as [? ?]
    end; try lia; eauto.
Qed.

Lemma open_port_is_reported_witness :
  exists d h',
    _scan_single_target open_network (py "10.0.0.5") 5555 default_settings []
      = (Some d, h') /\
    device_type d = py "Unknown".
Proof.
  destruct (open_port_is_reported open_network (py "10.0.0.5") 5555 default_settings []
              (Raise RuntimeError)) as (d & h' & E & K); [done..|].
  exists d, h'. split; [exact E|exact K].
Defined.

(** ** The validator and the address generator, completed *)

(** X5: [validate_ip] never raises, and it returns [True] exactly for the
    strings made of four groups of one to three decimal digits, each of
    value at most 255, separated by dots and followed by nothing or by
    exactly one newline. *)
Theorem validate_ip_decides s :
  exists b, validate_ip s = Ok b /\
    (b = true <->
     exists o1 o2 o3 o4 rest,
       s = quad o1 o2 o3 o4 ++ rest /\ (rest = [] \/ rest = [LF]) /\
       decimal_octet o1 = true /\ decimal_octet o2 = true /\
       decimal_octet o3 = true /\ decimal_octet o4 = true).
Proof.
  exists (accepts s). split; [apply validate_ip_spec|]. split; [apply accepts_inv|].
  intros (o1 & o2 & o3 & o4 & rest & -> & Hr & H1 & H2 & H3 & H4).
  apply decimal_octet_inv in H1 as [H1 R1], H2 as [H2 R2], H3 as [H3 R3], H4 as [H4 R4].
  assert (dotted_quad (quad o1 o2 o3 o4) = true) as Hq.
  { rewrite dotted_quad_quad by done. repeat (apply andb_true_iff; split); lia. }
  unfold accepts. destruct Hr as [->| ->].
  - by rewrite app_nil_r, Hq.
  - by rewrite chomp_snoc, Hq, orb_true_r.
Qed.

(** X7: rendering and parsing an address are inverse on octets: the tuple
    of ['.'.join(map(str, t))] is [t] for four octets in 0..255, and for an
    address that [validate_ip] accepts the rendering of its tuple is again
    accepted and has the same tuple (leading zeros and the newline go). *)
Theorem ip_tuple_round_trip :
  (forall t, octets 255 t -> ip_to_tuple (dotted t) = t) /\
  (forall s, validate_ip s = Ok true ->
     validate_ip (dotted (ip_to_tuple s)) = Ok true /\
     ip_to_tuple (dotted (ip_to_tuple s)) = ip_to_tuple s).
Proof.
  split; [apply ip_to_tuple_dotted|].
  intros s Hs. apply valid_ip_tuple in Hs.
  split; [by apply valid_dotted|by apply ip_to_tuple_dotted].
Qed.

Lemma ip_tuple_round_trip_witness :
  ip_to_tuple (dotted [10; 0; 255; 7]) = [10; 0; 255; 7] /\
  ip_to_tuple (dotted (ip_to_tuple (py "010.001.1.1" ++ [LF]))) = [10; 1; 1; 1].
Proof.
  destruct ip_tuple_round_trip as [H1 H2]. split.
  - apply H1. exists 10, 0, 255, 7. repeat split; lia.
  - destruct (H2 (py "010.001.1.1" ++ [LF]) ltac:(vm_compute; reflexivity)) as [_ E].
    rewrite E. vm_compute. reflexivity.
Defined.

Lemma tuple_of_octets n :
  0 <= n < 4294967296 -> octets 255 (tuple_of n) /\ tuple_int (tuple_of n) = n.
Proof.
  intros Hn. unfold tuple_of. split.
  - exists (n / 16777216), ((n / 65536) mod 256), ((n / 256) mod 256), (n mod 256).
    split; [done|]. Z.div_mod_to_equations. lia.
  - cbn [tuple_int]. Z.div_mod_to_equations. lia.
Qed.

Lemma tuple_int_inj t1 t2 :
  octets 255 t1 -> octets 255 t2 -> tuple_int t1 = tuple_int t2 -> t1 = t2.
Proof.
  intros (a & b & c & d & -> & Ha & Hb & Hc & Hd)
         (a' & b' & c' & d' & -> & Ha' & Hb' & Hc' & Hd').
  cbn [tuple_int]. intros E.
  assert (d = d') by lia. assert (c = c') by lia. assert (b = b') by lia.
  assert (a = a') by lia. by subst.
Qed.

Lemma tuple_int_range t : octets 255 t -> 0 <= tuple_int t < 4294967296.
Proof.
  intros (a & b & c & d & -> & Ha & Hb & Hc & Hd). cbn [tuple_int]. lia.
Qed.

Lemma tuple_of_int t : octets 255 t -> tuple_of (tuple_int t) = t.
Proof.
  intros Ht. pose proof (tuple_int_range t Ht) as Hr.
  destruct (tuple_of_octets _ Hr) as [Ho Hv]. by apply tuple_int_inj.
Qed.

Lemma ip_loop_exact e : octets 255 e ->
  forall fuel t ips, octets 256 t ->
    (Z.to_nat (tuple_int e - tuple_int t + 1) < fuel)%nat ->
    ip_loop fuel t e ips
    = Some (Ok (ips ++ map address_of
                         (seqZ (tuple_int t) (tuple_int e - tuple_int t + 1)))).
Proof.
  intros He fuel. induction fuel as [|fuel IH]; intros t ips Ht Hf; [lia|].
  cbn [ip_loop]. rewrite tuple_le_int by done.
  destruct (Z.leb_spec (tuple_int t) (tuple_int e)) as [Hle|Hgt].
  - pose proof (octets_le _ _ Ht He Hle) as Ht'.
    destruct (increment_octets _ Ht') as (t' & -> & Ho & Hv).
    rewrite (IH t' (ips ++ [dotted t]) Ho) by lia.
    rewrite (seqZ_cons (tuple_int t)) by lia. cbn [map].
    unfold address_of at 2. rewrite tuple_of_int by done.
    rewrite <- app_assoc. cbn. rewrite Hv.
    replace (Z.succ (tuple_int t)) with (tuple_int t + 1) by lia.
    replace (Z.pred (tuple_int e - tuple_int t + 1))
      with (tuple_int e - (tuple_int t + 1) + 1) by lia.
    done.
  - rewrite seqZ_nil by lia. by rewrite app_nil_r.
Qed.

Lemma generate_ip_range_addresses ip_start ip_end :
  validate_ip ip_start = Ok true -> validate_ip ip_end = Ok true ->
  generate_ip_range ip_start ip_end
  = map address_of (seqZ (ip_value ip_start) (ip_value ip_end - ip_value ip_start + 1)).
Proof.
  intros Hs He. unfold generate_ip_range, invalid_range. rewrite Hs, He. cbn [bind negb].
  pose proof (valid_ip_tuple _ Hs) as Os. pose proof (valid_ip_tuple _ He) as Oe.
  assert (octets 256 (ip_to_tuple ip_start)) as Os'.
  { destruct Os as (a & b & c & d & -> & ? & ?). exists a, b, c, d. split; [done|]. lia. }
  rewrite (ip_loop_exact _ Oe) by (done || (unfold ip_fuel; lia)). done.
Qed.

(** X8: for endpoints that [validate_ip] accepts, [generate_ip_range] is
    exactly the list of the dotted quads of [start_int], [start_int + 1],
    ..., [end_int], each written without leading zeros (so an endpoint
    written as "010.0.0.1" comes out as "10.0.0.1"). *)
Theorem generate_ip_range_exact ip_start ip_end :
  validate_ip ip_start = Ok true -> validate_ip ip_end = Ok true ->
  generate_ip_range ip_start ip_end
  = map address_of (seqZ (ip_value ip_start) (ip_value ip_end - ip_value ip_start + 1)).
Proof. apply generate_ip_range_addresses. Qed.

Lemma generate_ip_range_exact_witness :
  generate_ip_range (py "010.0.0.255") (py "10.0.1.0")
  = [py "10.0.0.255"; py "10.0.1.0"].
Proof.
  rewrite (generate_ip_range_exact (py "010.0.0.255") (py "10.0.1.0"))
    by (vm_compute; reflexivity).
  vm_compute. reflexivity.
Defined.

(** X9: ranges compose: when [mid_next] is the address after [mid], the
    range from [first] to [last] is the range from [first] to [mid]
    followed by the range from [mid_next] to [last]. *)
Theorem generate_ip_range_app first mid mid_next last :
  validate_ip first = Ok true -> validate_ip mid = Ok true ->
  validate_ip mid_next = Ok true -> validate_ip last = Ok true ->
  ip_value mid_next = ip_value mid + 1 ->
  ip_value first <= ip_value mid_next -> ip_value mid <= ip_value last ->
  generate_ip_range first last
  = generate_ip_range first mid ++ generate_ip_range mid_next last.
Proof.
  intros H1 H2 H3 H4 Hn Hl Hr.
  rewrite !generate_ip_range_addresses by done. rewrite <- map_app. f_equal.
  rewrite Hn.
  replace (ip_value last - ip_value first + 1)
    with ((ip_value mid - ip_value first + 1) + (ip_value last - (ip_value mid + 1) + 1))
    by lia.
  rewrite seqZ_app by lia. do 2 f_equal. lia.
Qed.

Lemma generate_ip_range_app_witness :
  generate_ip_range (py "10.0.0.254") (py "10.0.1.1")
  = generate_ip_range (py "10.0.0.254") (py "10.0.0.255")
    ++ generate_ip_range (py "10.0.1.0") (py "10.0.1.1").
Proof.
  apply generate_ip_range_app; vm_compute; (reflexivity || discriminate).
Defined.

(** ** The port specification, completed *)

Lemma ascending_unique (l1 l2 : list Z) :
  StronglySorted Z.lt l1 -> StronglySorted Z.lt l2 ->
  (forall p, p ∈ l1 <-> p ∈ l2) -> l1 = l2.
Proof.
  intros H1. revert l2. induction H1 as [|x l1 H1 IH Hx]; intros l2 H2 Hm.
  - destruct l2 as [|y l2]; [done|]. exfalso.
    apply (not_elem_of_nil y), Hm. left.
  - destruct H2 as [|y l2 H2 Hy].
    + exfalso. apply (not_elem_of_nil x), Hm. left.
    + rewrite Forall_forall in Hx, Hy.
      assert (x = y) as ->.
      { assert (x ∈ y :: l2) as Hin1 by (apply Hm; left).
        assert (y ∈ x :: l1) as Hin2 by (apply Hm; left).
        apply elem_of_cons in Hin1 as [?|Hin1]; [done|].
        apply elem_of_cons in Hin2 as [?|Hin2]; [done|].
        specialize (Hx _ Hin2). specialize (Hy _ Hin1). lia. }
      f_equal. apply IH; [done|]. intros p. split; intros Hp.
      * assert (p ∈ y :: l2) as Hin by (apply Hm; by right).
        apply elem_of_cons in Hin as [->|?]; [|done].
        specialize (Hx _ Hp). lia.
      * assert (p ∈ y :: l1) as Hin by (apply Hm; by right).
        apply elem_of_cons in Hin as [->|?]; [|done].
        specialize (Hy _ Hp). lia.
Qed.

Lemma names_valid tok p : names tok p -> validate_port p = true.
Proof.
  destruct (contains "-"%char (strip tok)) eqn:Hc.
  - intros (x & y & lo & hi & _ & _ & _ & Hlo & Hhi & Hp)%names_range; [|done].
    unfold validate_port in *.
    apply andb_true_iff in Hlo as [?%Z.leb_le ?%Z.leb_le].
    apply andb_true_iff in Hhi as [?%Z.leb_le ?%Z.leb_le].
    apply andb_true_iff. split; apply Z.leb_le; lia.
  - by intros [_ ?]%names_single.
Qed.

(** X10: [parse_ports] never raises and returns valid ports only: every
    port of the result is in 1..65535, whatever the specification string
    and the range bounds are. *)
Theorem parse_ports_valid port_string port_start port_end :
  exists ports,
    parse_ports port_string port_start port_end = Ok ports /\
    Forall (fun p => validate_port p = true) ports.
Proof.
  unfold parse_ports.
  destruct (parse_ports_log_spec port_string port_start port_end)
    as (ports & -> & _ & Hm).
  exists ports. split; [done|]. apply Forall_forall. intros p Hp.
  apply Hm in Hp as [(Ha & Hb & Hp)|(tok & _ & Hn)]; [|by eapply names_valid].
  unfold validate_port in *.
  apply andb_true_iff in Ha as [?%Z.leb_le ?%Z.leb_le].
  apply andb_true_iff in Hb as [?%Z.leb_le ?%Z.leb_le].
  apply andb_true_iff. split; apply Z.leb_le; lia.
Qed.



(** X12: the order of the tokens does not matter when none is malformed:
    two specification strings whose token lists are permutations of each
    other give the same ports and log nothing. *)
Theorem parse_ports_permutation s1 s2 port_start port_end :
  split ","%char s1 ≡ₚ split ","%char s2 ->
  forallb well_formed (split ","%char s1) = true ->
  parse_ports_log s1 port_start port_end = parse_ports_log s2 port_start port_end /\
  exists ports, parse_ports_log s1 port_start port_end = Ok (ports, false).
Proof.
  intros Hp Hw.
  assert (forallb well_formed (split ","%char s2) = true) as Hw2.
  { apply forallb_forall. intros t Ht. rewrite forallb_forall in Hw. apply Hw.
    apply list_elem_of_In. rewrite Hp. by apply list_elem_of_In. }
  destruct (parse_ports_log_spec s1 port_start port_end) as (l1 & E1 & S1 & M1).
  destruct (parse_ports_log_spec s2 port_start port_end) as (l2 & E2 & S2 & M2).
  rewrite E1, E2, Hw, Hw2. rewrite read_tokens_all in M1, M2 by done.
  assert (l1 = l2) as ->; [|split; [done|by exists l2]].
  apply ascending_unique; [done..|]. intros p. rewrite M1, M2.
  by setoid_rewrite Hp.
Qed.

Lemma parse_ports_permutation_witness :
  parse_ports_log (py "80,22,100-101") 5037 5037
  = parse_ports_log (py "100-101,80,22") 5037 5037.
Proof.
  apply parse_ports_permutation; [|vm_compute; reflexivity].
  change (split ","%char (py "80,22,100-101")) with [py "80"; py "22"; py "100-101"].
  change (split ","%char (py "100-101,80,22")) with [py "100-101"; py "80"; py "22"].
  symmetry. apply (Permutation_cons_append [py "80"; py "22"] (py "100-101")).
Defined.

(** ** The run, completed *)

Lemma targets_of_length ips ports :
  len (targets_of ips ports) = len ips * len ports.
Proof.
  unfold len, targets_of. induction ips as [|a ips IH]; cbn [flat_map]; [done|].
  rewrite length_app, length_map. cbn [length]. lia.
Qed.

Lemma targets_of_NoDup ips ports :
  NoDup ips -> NoDup ports -> NoDup (targets_of ips ports).
Proof.
  intros Hi Hp. unfold targets_of. induction Hi as [|a ips Ha Hi IH]; cbn [flat_map].
  - constructor.
  - apply NoDup_app. split; [|split; [|done]].
    + apply NoDup_fmap_2; [|done]. by intros x y [= ->].
    + intros [a' q] Hin1 Hin2.
      apply list_elem_of_fmap in Hin1 as (q' & E1 & _). injection E1 as -> ->.
      apply list_elem_of_In, in_flat_map in Hin2 as (b & Hb & Hq).
      apply list_elem_of_In, list_elem_of_fmap in Hq as (q'' & E2 & _).
      injection E2 as -> _. by apply Ha, list_elem_of_In.
Qed.

Lemma loop_body_trace total ev st :
  exists tl, trace (loop_body total ev st).2 = trace st ++ tl.
Proof.
  unfold loop_body, observe, stop_scan, try_unit, notify.
  destruct (stop_called ev); cbn;
  repeat match goal with
  | |- context [if ?b then _ else _] => destruct b; cbn
  | |- context [match ?x with Ok _ => _ | Raise _ => _ end] => destruct x; cbn
  | |- context [match ?x with Some _ => _ | None => _ end] => destruct x; cbn
  end; rewrite <- ?app_assoc; try (by eexists); exists []; by rewrite app_nil_r.
Qed.

Lemma scan_loop_trace total evs : forall st,
  exists tl, trace (scan_loop total evs st) = trace st ++ tl.
Proof.
  induction evs as [|ev evs IH]; intros st; cbn [scan_loop].
  - exists []. by rewrite app_nil_r.
  - destruct (loop_body_trace total ev st) as [t1 H1].
    destruct (loop_body total ev st) as [[] st']; cbn in H1.
    + destruct (IH st') as [t2 H2]. exists (t1 ++ t2). by rewrite H2, H1, app_assoc.
    + by exists t1.
Qed.


Lemma generate_ip_range_NoDup ip_start ip_end :
  NoDup (generate_ip_range ip_start ip_end).
Proof.
  destruct (accepts ip_start && accepts ip_end) eqn:E.
  - apply andb_true_iff in E as [Es Ee].
    destruct (generate_ip_range_valid ip_start ip_end) as [Hm _];
      [by rewrite validate_ip_spec, Es|by rewrite validate_ip_spec, Ee|].
    apply (NoDup_fmap_1 ip_value). change (NoDup (map ip_value
      (generate_ip_range ip_start ip_end))). rewrite Hm. apply NoDup_seqZ.
  - unfold generate_ip_range, invalid_range. rewrite !validate_ip_spec. cbn [bind].
    destruct (accepts ip_start), (accepts ip_end); try done; constructor.
Qed.

Lemma ascending_NoDup (l : list Z) : StronglySorted Z.lt l -> NoDup l.
Proof.
  induction 1 as [|x l Hs IH Hx]; constructor; [|done].
  rewrite Forall_forall in Hx. intros Hin. specialize (Hx _ Hin). lia.
Qed.

(** X13: the target list of a scan is the full product of the addresses
    and the ports -- [len(ips) * len(ports)] targets -- and it never holds
    the same (address, port) pair twice, so two units of one scan never
    share a key. *)
Theorem targets_distinct cfg :
  exists ports,
    parse_ports (custom_ports cfg) (port_start cfg) (port_end cfg) = Ok ports /\
    NoDup (targets_of (generate_ip_range (ip_start cfg) (ip_end cfg)) ports) /\
    len (targets_of (generate_ip_range (ip_start cfg) (ip_end cfg)) ports)
      = len (generate_ip_range (ip_start cfg) (ip_end cfg)) * len ports.
Proof.
  unfold parse_ports.
  destruct (parse_ports_log_spec (custom_ports cfg) (port_start cfg) (port_end cfg))
    as (ports & -> & Hs & _).
  exists ports. split; [done|]. split; [|apply targets_of_length].
  apply targets_of_NoDup; [apply generate_ip_range_NoDup|by apply ascending_NoDup].
Qed.

(** [scan_async] after a passed validation. *)
Lemma scan_async_valid self cfg w m :
  validate cfg = Ok (true, m) ->
  scan_async self cfg w
  = let '(r, s', tr, pool, rep) :=
      scan_body (set_devices_found [] (set_is_scanning true self)) cfg w in
    let (r', tr') :=
      match r with
      | Ok _ => (Ok tt, tr)
      | Raise e => notify s' (mkNotification (TCritical e) None None) tr
      end in
    mkRun (to_raised r') (set_is_scanning false s') tr' cfg false pool rep.
Proof.
  intros Hv. pose proof (validate_true _ _ Hv) as (_ & _ & _ & _ & _ & Ht & _).
  unfold validate_threads in Ht. apply andb_true_iff in Ht as [_ T2%Z.leb_le].
  unfold scan_async. rewrite Hv.
  replace (200 <? threads cfg) with false by (symmetry; apply Z.ltb_ge; lia).
  done.
Qed.

Lemma validated_ports cfg m :
  validate cfg = Ok (true, m) ->
  exists ports,
    parse_ports (custom_ports cfg) (port_start cfg) (port_end cfg) = Ok ports /\
    port_start cfg ∈ ports.
Proof.
  intros (_ & _ & Hps & Hpe & Hle & _)%validate_true. unfold parse_ports.
  destruct (parse_ports_log_spec (custom_ports cfg) (port_start cfg) (port_end cfg))
    as (ports & -> & _ & Hm).
  exists ports. split; [done|]. apply Hm. left. split; [done|]. split; [done|]. lia.
Qed.

(** X14: validation does not compare the two addresses.  With valid
    settings whose start address is numerically above the end address,
    [scan_async] notifies "No valid IPs or ports to scan" first, makes no
    pool and stores no report; afterwards the flag is false, the aggregation
    map is empty and the stored result is the previous one. *)
Theorem scan_async_empty_range self cfg w m :
  validate cfg = Ok (true, m) ->
  ip_value (ip_end cfg) < ip_value (ip_start cfg) ->
  (exists rest,
     notified (scan_async self cfg w) = mkNotification TNoTargets None None :: rest) /\
  (quiet_callback self ->
     notified (scan_async self cfg w) = [mkNotification TNoTargets None None] /\
     raised (scan_async self cfg w) = None) /\
  pool_size (scan_async self cfg w) = None /\
  report (scan_async self cfg w) = None /\
  is_scanning (scanner (scan_async self cfg w)) = false /\
  devices_found (scanner (scan_async self cfg w)) = [] /\
  scan_result (scanner (scan_async self cfg w)) = scan_result self.
Proof.
  intros Hv Hlt. rewrite (scan_async_valid _ _ _ _ Hv).
  pose proof (validate_true _ _ Hv) as (Hs & He & _).
  destruct (generate_ip_range_valid _ _ Hs He) as [Hm _].
  rewrite seqZ_nil in Hm by lia.
  assert (generate_ip_range (ip_start cfg) (ip_end cfg) = []) as Hips
    by (by destruct (generate_ip_range _ _)).
  destruct (validated_ports _ _ Hv) as (ports & Hp & _).
  unfold scan_body. rewrite Hips, Hp. cbn [is_empty orb].
  unfold notify, quiet_callback. cbn [callback set_devices_found set_is_scanning].
  destruct (callback self) as [cb|]; cbn.
  - destruct (cb _) as [[]|e] eqn:E1; cbn.
    + split; [by eexists|]. split; [done|]. done.
    + split; [by eexists|]. split; [|done]. intros Hq. rewrite Hq in E1. done.
  - split; [by eexists|]. done.
Qed.

Lemma scan_async_empty_range_witness :
  notified (scan_async (new_scanner [])
              (mkScanSettings (py "10.0.0.9") (py "10.0.0.1") 5037 5037
                 (py "22") 1%float 50 2 true true true false false true [])
              quiet)
  = [mkNotification TNoTargets None None].
Proof.
  eapply (scan_async_empty_range (new_scanner [])); [vm_compute; reflexivity|..].
  - vm_compute. reflexivity.
  - exact I.
Defined.

(** X15: with valid settings whose start address is not above the end
    address, the port list is not empty and the first notification is
    [SCAN START] with [(end_int - start_int + 1) * len(ports)] targets. *)
Theorem scan_async_start_count self cfg w m :
  validate cfg = Ok (true, m) ->
  ip_value (ip_start cfg) <= ip_value (ip_end cfg) ->
  exists ports rest,
    parse_ports (custom_ports cfg) (port_start cfg) (port_end cfg) = Ok ports /\
    ports <> [] /\
    notified (scan_async self cfg w)
    = mkNotification
        (TScanStart ((ip_value (ip_end cfg) - ip_value (ip_start cfg) + 1) * len ports))
        None None :: rest.
Proof.
  intros Hv Hle. rewrite (scan_async_valid _ _ _ _ Hv).
  pose proof (validate_true _ _ Hv) as (Hs & He & _).
  destruct (generate_ip_range_valid _ _ Hs He) as [Hm _].
  assert (len (generate_ip_range (ip_start cfg) (ip_end cfg))
          = ip_value (ip_end cfg) - ip_value (ip_start cfg) + 1) as Hlen.
  { unfold len. rewrite <- (length_map ip_value), Hm, length_seqZ. lia. }
  destruct (validated_ports _ _ Hv) as (ports & Hp & Hin).
  exists ports. assert (ports <> []) as Hne by (intros ->; by apply elem_of_nil in Hin).
  unfold scan_body. rewrite Hp.
  destruct (generate_ip_range (ip_start cfg) (ip_end cfg)) as [|a ips] eqn:Hips;
    [unfold len in Hlen; cbn in Hlen; lia|].
  destruct ports as [|q ports]; [done|]. cbn [is_empty orb].
  rewrite targets_of_length, Hlen.
  unfold notify at 1. cbn [app].
  destruct (match callback _ with Some cb => _ | None => _ end); cbn.
  - destruct (threads cfg <=? 0); cbn.
    + eexists. split; [done|]. split; [done|]. reflexivity.
    + destruct (submit_error w); cbn.
      * eexists. split; [done|]. split; [done|]. reflexivity.
      * match goal with |- context [scan_loop ?t ?e ?s] =>
          pose proof (scan_loop_trace t e s) as [tl Htl] end.
        cbn in Htl. unfold notify. rewrite Htl. cbn.
        destruct (match callback _ with Some cb => _ | None => _ end); cbn;
          eexists; (split; [done|]); (split; [done|]); reflexivity.
  - eexists. split; [done|]. split; [done|]. reflexivity.
Qed.

Lemma scan_async_start_count_witness :
  exists rest,
    notified (scan_async (new_scanner []) default_settings quiet)
    = mkNotification (TScanStart 1020) None None :: rest.
Proof.
  destruct (scan_async_start_count (new_scanner []) default_settings quiet MsgOK)
    as (ports & rest & Hp & _ & Hn);
    [vm_compute; reflexivity|vm_compute; discriminate|].
  exists rest. rewrite Hn. vm_compute in Hp. injection Hp as <-. reflexivity.
Defined.

Lemma loop_body_scanned total ev st :
  is_scanning (engine st) = true -> stop_called ev = false ->
  scanned st + 1 <= scanned (loop_body total ev st).2 <= scanned st + 2 /\
  (quiet_callback (engine st) -> scanned (loop_body total ev st).2 = scanned st + 1).
Proof.
  intros Hs Hc. unfold loop_body. rewrite Hc. cbn [observe]. rewrite Hs. cbn [negb].
  unfold try_unit, notify, quiet_callback.
  destruct (outcome ev) as [[d|]|e]; cbn.
  - destruct (callback (engine st)) as [cb|]; cbn; [|split; [lia|done]].
    destruct (cb _) as [[]|e] eqn:E; cbn; (split; [lia|]); [done|].
    intros Hq. rewrite Hq in E. done.
  - destruct (_ =? 0); cbn; [|split; [lia|done]].
    destruct (callback (engine st)) as [cb|]; cbn; [|split; [lia|done]].
    destruct (cb _) as [[]|e] eqn:E; cbn; (split; [lia|]); [done|].
    intros Hq. rewrite Hq in E. done.
  - split; [lia|done].
Qed.

Lemma scan_loop_scanned total evs : forall st,
  is_scanning (engine st) = true ->
  scanned st + consumed evs <= scanned (scan_loop total evs st)
    <= scanned st + 2 * consumed evs /\
  (quiet_callback (engine st) ->
   scanned (scan_loop total evs st) = scanned st + consumed evs).
Proof.
  induction evs as [|ev evs IH]; intros st Hs; cbn [scan_loop consumed].
  - split; [lia|]. intros _. lia.
  - destruct (stop_called ev) eqn:Hc.
    + rewrite loop_body_break by (by rewrite Hs, Hc).
      destruct (observe_engine (stop_called ev) st) as (_ & _ & _ & -> & _).
      split; [lia|]. intros _. lia.
    + pose proof (loop_body_scanned total ev st Hs Hc) as [Hb Hq].
      destruct (loop_body_continue total ev st Hs Hc) as (st' & E & Hs' & Hcb & _).
      rewrite E in *. cbn [snd] in *.
      destruct (IH st' Hs') as [Hb' Hq']. split; [lia|].
      intros Q. rewrite Hq', Hq; [lia|done|].
      unfold quiet_callback in *. by rewrite Hcb.
Qed.

Lemma scan_body_scanned self cfg w r s' tr pool res :
  scan_body self cfg w = (r, s', tr, pool, Some res) ->
  exists total tr0,
    total_scanned res = scanned (scan_loop total (events w) (mkLoop self 0 tr0)).
Proof.
  unfold scan_body.
  destruct (parse_ports _ _ _) as [ports|e]; [|done].
  destruct (is_empty _ || is_empty _); [done|].
  cbn [notify]. destruct (match callback self with Some _ => _ | None => _ end); [|done].
  destruct (threads cfg <=? 0); [done|].
  destruct (submit_error w); [done|].
  intros [= _ _ _ _ <-]. cbn. by eexists _, _.
Qed.

Lemma scan_async_report_inv self cfg w res :
  report (scan_async self cfg w) = Some res ->
  exists r s' tr pool,
    scan_body (set_devices_found [] (set_is_scanning true self)) cfg w
    = (r, s', tr, pool, Some res).
Proof.
  destruct (validate_cases cfg) as [Hv|[m Hm]].
  - rewrite (scan_async_valid _ _ _ _ Hv).
    destruct (scan_body _ cfg w) as [[[[r s'] tr] pool] rep].
    destruct r as [u|e]; cbn; [|destruct (callback s'); cbn];
      intros ->; by eexists _, _, _, _.
  - destruct (scan_async_rejects self cfg w m Hm) as (_ & _ & _ & _ & _ & ->). done.
Qed.

(** X16: [total_scanned] counts the futures that the loop takes before it
    observes a stop: each of them once, or twice when the callback raises
    on its notification; with a callback that never raises (or none) it is
    exactly their number. *)
Theorem total_scanned_counts self cfg w res :
  report (scan_async self cfg w) = Some res ->
  consumed (events w) <= total_scanned res <= 2 * consumed (events w) /\
  (quiet_callback self -> total_scanned res = consumed (events w)).
Proof.
  intros (r & s' & tr & pool & Hb)%scan_async_report_inv.
  apply scan_body_scanned in Hb as (total & tr0 & ->).
  match goal with |- context [scan_loop ?t ?e ?s] =>
    destruct (scan_loop_scanned t e s eq_refl) as [H1 H2] end.
  cbn [scanned] in *. split; [lia|]. intros Q. rewrite H2; [lia|done].
Qed.

Lemma total_scanned_counts_witness :
  exists res,
    report (scan_async (new_scanner []) default_settings two_hits) = Some res /\
    total_scanned res = 3.
Proof.
  destruct (report (scan_async (new_scanner []) default_settings two_hits))
    as [res|] eqn:E; [|vm_compute in E; discriminate].
  exists res. split; [reflexivity|].
  destruct (total_scanned_counts _ _ _ _ E) as [_ H]. exact (H I).
Defined.

(** The upper bound is reached: two records and a miss, with a callback
    that raises on [FOUND], count as five. *)
Example total_scanned_twice :
  total_scanned <$> report (scan_async picky_scanner default_settings two_hits) = Some 5.
Proof. vm_compute. reflexivity. Qed.

Lemma loop_body_stops total ev st :
  stop_called ev = true -> (loop_body total ev st).1 = false.
Proof.
  intros Hc. rewrite loop_body_break; [done|]. rewrite Hc. apply andb_false_r.
Qed.

Lemma scan_loop_after_stop total evs ev later : forall st,
  stop_called ev = true ->
  scan_loop total (evs ++ ev :: later) st = scan_loop total (evs ++ [ev]) st.
Proof.
  induction evs as [|e0 evs IH]; intros st Hc; cbn [scan_loop app].
  - pose proof (loop_body_stops total ev st Hc) as H.
    destruct (loop_body total ev st) as [[] st']; cbn in H; done.
  - destruct (loop_body total e0 st) as [[] st']; [by apply IH|done].
Qed.

(** X17: what completes after the stop is observed has no effect: the
    futures that [as_completed] would yield after the one at which the loop
    sees the stop change nothing in the result of [scan_async] -- neither
    the report, nor the counts, nor the notifications. *)
Theorem scan_async_after_stop self cfg w evs ev later :
  stop_called ev = true ->
  scan_async self cfg (with_events (evs ++ ev :: later) w)
  = scan_async self cfg (with_events (evs ++ [ev]) w).
Proof.
  intros Hc. unfold scan_async, scan_body, with_events.
  cbn [events submit_error start_time end_time now].
  destruct (validate cfg) as [[[] m]|e]; [|done..].
  destruct (parse_ports _ _ _) as [ports|e]; [|done].
  destruct (is_empty _ || is_empty _); [done|].
  destruct (notify _ _ []) as [[u|e] tr]; [|done].
  destruct (threads _ <=? 0); [done|].
  destruct (submit_error w); [done|].
  by rewrite scan_loop_after_stop.
Qed.

Lemma scan_async_after_stop_witness :
  scan_async (new_scanner []) default_settings
    (with_events ([mkEvent false (Ok None)] ++ mkEvent true (Ok None)
                    :: [mkEvent false (Ok (Some (hit (py "ADB"))))]) quiet)
  = scan_async (new_scanner []) default_settings
      (with_events ([mkEvent false (Ok None)] ++ [mkEvent true (Ok None)]) quiet).
Proof. apply scan_async_after_stop. reflexivity. Defined.

(** X18: the key [f"{ip}:{port}"] of the aggregation map identifies the
    target: two records have the same key exactly when they have the same
    address and the same port, whatever characters the address holds. *)
Theorem key_of_injective d1 d2 :
  key_of d1 = key_of d2 <-> ip d1 = ip d2 /\ port d1 = port d2.
Proof.
  split.
  - intros H%key_of_inj. unfold target_key in H. by injection H.
  - intros [H1 H2]. unfold key_of. by rewrite H1, H2.
Qed.

(** ** JSON export *)

Lemma device_of_json_asdict d : device_of_json (asdict d) = Some d.
Proof. destruct d. vm_compute. reflexivity. Qed.

(** X19: [export_json] loses nothing: the document holds one object per
    record of the report, in the order of the report, from which every
    field of the record is read back, and the stored found and scanned
    counts. *)
Theorem export_json_round_trip self :
  report_of_json (export_json self)
  = Some (devices (scan_result self), total_found (scan_result self),
          total_scanned (scan_result self)).
Proof.
  unfold export_json.
  assert (mapM device_of_json (map asdict (devices (scan_result self)))
          = Some (devices (scan_result self))) as H.
  { induction (devices (scan_result self)) as [|d l IH]; [done|].
    cbn [map mapM]. rewrite device_of_json_asdict. cbn. by rewrite IH. }
  unfold report_of_json.
  change (dict_get (py "devices") _) with
    (Some (JList (map asdict (devices (scan_result self))))).
  cbv beta iota.
  match goal with |- context [dict_get (py "stats") ?l] =>
    change (dict_get (py "stats") l) with
      (Some (JDict [(py "found", JInt (total_found (scan_result self)));
                    (py "scanned", JInt (total_scanned (scan_result self)));
                    (py "time", JFloat (scan_time (scan_result self)));
                    (py "timestamp", JStr (result_timestamp (scan_result self)))])) end.
  cbv beta iota. rewrite H. reflexivity.
Qed.

(** ** Notifications *)

Lemma count_snoc kind ns n :
  count kind (ns ++ [n]) = count kind ns + (if kind n then 1 else 0).
Proof.
  unfold count, len. rewrite List.filter_app, length_app. cbn.
  destruct (kind n); cbn; lia.
Qed.

Lemma loop_body_counts total ev st :
  is_scanning (engine st) = true -> stop_called ev = false ->
  count is_found (trace (loop_body total ev st).2)
    = count is_found (trace st)
      + match outcome ev with Ok (Some _) => 1 | _ => 0 end /\
  (10 * count is_progress (trace st) <= scanned st ->
   10 * count is_progress (trace (loop_body total ev st).2)
     <= scanned (loop_body total ev st).2).
Proof.
  intros Hs Hc. unfold loop_body. rewrite Hc. cbn [observe]. rewrite Hs. cbn [negb].
  unfold try_unit, notify.
  destruct (outcome ev) as [[d|]|e]; cbn.
  - destruct (match callback _ with Some cb => _ | None => _ end); cbn;
      rewrite !count_snoc; cbn; split; lia.
  - destruct (Z.eqb_spec ((scanned st + 1) mod 10) 0) as [Hm|Hm]; cbn.
    + destruct (match callback _ with Some cb => _ | None => _ end); cbn;
        rewrite !count_snoc; cbn; (split; [lia|]); intros H;
        apply Z.mod_divide in Hm as [k Hk]; lia.
    + split; lia.
  - split; lia.
Qed.

Lemma scan_loop_counts total evs : forall st,
  is_scanning (engine st) = true ->
  count is_found (trace (scan_loop total evs st))
    = count is_found (trace st) + len (discoveries evs) /\
  (10 * count is_progress (trace st) <= scanned st ->
   10 * count is_progress (trace (scan_loop total evs st))
     <= scanned (scan_loop total evs st)).
Proof.
  induction evs as [|ev evs IH]; intros st Hs; cbn [scan_loop discoveries].
  - split; [unfold len; cbn; lia|done].
  - destruct (stop_called ev) eqn:Hc.
    + rewrite loop_body_break by (by rewrite Hs, Hc). rewrite Hc. cbn.
      rewrite !count_snoc. cbn. split; unfold len; cbn; lia.
    + pose proof (loop_body_counts total ev st Hs Hc) as [F P].
      destruct (loop_body_continue total ev st Hs Hc) as (st' & E & Hs' & _).
      rewrite E in *. cbn [snd] in *. destruct (IH st' Hs') as [F' P'].
      split; [|by intros H; apply P', P].
      rewrite F', F. destruct (outcome ev) as [[d|]|e]; unfold len; cbn [length]; lia.
Qed.

Lemma scan_body_completed self cfg w r s' tr pool res :
  scan_body self cfg w = (r, s', tr, pool, Some res) ->
  exists total,
    let st := scan_loop total (events w)
                (mkLoop self 0 [mkNotification (TScanStart total) None None]) in
    let done := mkNotification (TComplete (total_found res) (scan_time res))
                  (Some Hundred) (Some (total_found res)) in
    total_scanned res = scanned st /\
    tr = trace st ++ [done] /\
    r = match callback (engine st) with
        | Some cb => cb done
        | None => Ok tt
        end /\
    s' = set_scan_result res (engine st).
Proof.
  unfold scan_body.
  destruct (parse_ports _ _ _) as [ports|e]; [|done].
  destruct (is_empty _ || is_empty _); [done|].
  cbn [notify]. destruct (match callback self with Some _ => _ | None => _ end); [|done].
  destruct (threads cfg <=? 0); [done|].
  destruct (submit_error w); [done|].
  intros [= <- <- <- _ <-]. cbn. eexists. done.
Qed.

(** X20: in a run that stores a report, a [FOUND] notification is made for
    every record that the loop receives -- also for one that overwrites an
    earlier record -- and [PROGRESS] notifications are throttled: ten times
    their number is at most [total_scanned]. *)
Theorem notifications_counts self cfg w res :
  report (scan_async self cfg w) = Some res ->
  count is_found (notified (scan_async self cfg w)) = len (discoveries (events w)) /\
  10 * count is_progress (notified (scan_async self cfg w)) <= total_scanned res.
Proof.
  intros Hrep. pose proof Hrep as (r & s' & tr & pool & Hb)%scan_async_report_inv.
  destruct (validate_cases cfg) as [Hv|[m Hm]];
    [|destruct (scan_async_rejects self cfg w m Hm) as (_ & _ & _ & _ & _ & E);
      congruence].
  rewrite (scan_async_valid _ _ _ _ Hv), Hb.
  apply scan_body_completed in Hb as (total & Hsc & -> & _ & _).
  match goal with |- context [scan_loop ?t ?e ?s] =>
    destruct (scan_loop_counts t e s eq_refl) as [F P] end.
  cbn [trace scanned] in F, P. rewrite Hsc.
  change (count is_found [_]) with 0 in F. change (count is_progress [_]) with 0 in P.
  specialize (P ltac:(lia)).
  destruct r as [u|e]; cbn [notify notified];
    rewrite ?count_snoc; cbn [is_found is_progress n_message];
    rewrite ?count_snoc; cbn [is_found is_progress n_message]; rewrite F;
    (split; lia).
Qed.

Lemma notifications_counts_witness :
  count is_found (notified (scan_async (new_scanner []) default_settings two_hits)) = 2.
Proof.
  destruct (report (scan_async (new_scanner []) default_settings two_hits))
    as [res|] eqn:E; [|vm_compute in E; discriminate].
  destruct (notifications_counts _ _ _ _ E) as [H _]. rewrite H. reflexivity.
Defined.

(** X21: a run that stores a report and whose callback never raises ends
    without an exception, and its last notification is [COMPLETE] with the
    number of records of the report and progress 100. *)
Theorem scan_async_complete_last self cfg w res :
  report (scan_async self cfg w) = Some res ->
  quiet_callback self ->
  raised (scan_async self cfg w) = None /\
  exists earlier,
    notified (scan_async self cfg w)
    = earlier ++ [mkNotification (TComplete (total_found res) (scan_time res))
                    (Some Hundred) (Some (total_found res))].
Proof.
  intros Hrep Q. pose proof Hrep as (r & s' & tr & pool & Hb)%scan_async_report_inv.
  destruct (validate_cases cfg) as [Hv|[m Hm]];
    [|destruct (scan_async_rejects self cfg w m Hm) as (_ & _ & _ & _ & _ & E);
      congruence].
  rewrite (scan_async_valid _ _ _ _ Hv), Hb.
  apply scan_body_completed in Hb as (total & _ & -> & -> & _).
  rewrite scan_loop_callback. cbn [engine callback set_devices_found set_is_scanning].
  unfold quiet_callback in Q. destruct (callback self) as [cb|].
  - rewrite Q. cbn. split; [done|]. by eexists.
  - cbn. split; [done|]. by eexists.
Qed.

Lemma scan_async_complete_last_witness :
  raised (scan_async (new_scanner []) default_settings two_hits) = None.
Proof.
  destruct (report (scan_async (new_scanner []) default_settings two_hits))
    as [res|] eqn:E; [|vm_compute in E; discriminate].
  destruct (scan_async_complete_last _ _ _ _ E I) as [H _]. exact H.
Defined.
